(** * Object dispatch of tg/controllers/dispatcher.py

    A shallow embedding of [DispatchState], of the argument binding of
    [Dispatcher] and of the tree walk of [ObjectDispatcher], followed by
    the properties of the specification that are settled on them. *)

From Stdlib Require Import ZArith Lia String Ascii.
From stdpp Require Import base option list strings gmap.

Local Open Scope string_scope.
Local Open Scope list_scope.
Local Open Scope stdpp_scope.

(** ** Python values and slices *)

(** A request parameter is a string or, for a repeated key, a list of
    strings; the entries of a remainder start out as strings. *)
Inductive pyval :=
| VStr (s : string)
| VList (l : list string).

#[global] Instance pyval_eq_dec : EqDecision pyval.
Proof. solve_decision. Defined.

(** [l[k:]] for [0 <= k]. *)
Definition slice_from {A} (k : nat) (l : list A) : list A := drop k l.
(** [l[:k]] for [0 <= k]. *)
Definition slice_to {A} (k : nat) (l : list A) : list A := take k l.
(** [l[:-k]] for [0 < k]: the bound [len(l) - k] is clamped at [0]. *)
Definition slice_to_neg {A} (k : nat) (l : list A) : list A :=
  take (length l - k) l.

(** Exceptions that the modelled code raises. [SecurityRejected] stands
    for whatever a [_check_security] hook raises. *)
Inductive exn :=
| HTTPNotFound
| SecurityRejected
| KeyError (k : string)
| IndexError
| AttributeError
| TypeError.

(** ** Argument binding ([Dispatcher]) *)

(** The tuple returned by [inspect.getargspec]. *)
Record ArgSpec := mkArgSpec {
  spec_args : list string;
  spec_varargs : option string;
  spec_keywords : option string;
  spec_defaults : option (list pyval)
}.

(** Identity of a function object ([func.im_func]). *)
Definition func := nat.

(** The objects the binding code shares with its caller: parameter
    dictionaries and remainder lists are referred to by their position in
    the store, and the class attribute [_cached_argspecs] is [None] until
    its first use. *)
Record store := mkStore {
  dicts : list (gmap string pyval);
  lists : list (list pyval);
  cached_argspecs : option (gmap func ArgSpec)
}.

Definition set_dicts (d : list (gmap string pyval)) (σ : store) : store :=
  mkStore d (lists σ) (cached_argspecs σ).
Definition set_lists (l : list (list pyval)) (σ : store) : store :=
  mkStore (dicts σ) l (cached_argspecs σ).
Definition set_cache (c : option (gmap func ArgSpec)) (σ : store) : store :=
  mkStore (dicts σ) (lists σ) c.

(** [params.copy()]: a new dictionary object with the same items. *)
Definition dict_copy (p : nat) (σ : store) : option (nat * store) :=
  d ← dicts σ !! p;
  Some (length (dicts σ), set_dicts (dicts σ ++ [d]) σ).

(** Result of a binding function: the returned pair of references, or the
    exception that escaped, and the store left behind. *)
Inductive bound :=
| Bound (params remainder : nat) (σ : store)
| BindRaised (e : exn) (σ : store).

Definition bound_store (b : bound) : store :=
  match b with Bound _ _ σ => σ | BindRaised _ σ => σ end.

Section Binding.

(** [inspect.getargspec], a pure function of the function object. *)
Variable getargspec : func → ArgSpec.

Definition _get_argspec (f : func) (σ : store) : ArgSpec * store :=
  let cached := default ∅ (cached_argspecs σ) in
  match cached !! f with
  | Some a => (a, set_cache (Some cached) σ)
  | None => (getargspec f, set_cache (Some (<[f := getargspec f]> cached)) σ)
  end.

(** The loop of [_get_params_with_argspec]:
    [for i, var in enumerate(argvars)]. *)
Fixpoint fill_params (i : nat) (argvars : list string) (rem : list pyval)
    (d : gmap string pyval) : gmap string pyval :=
  match argvars with
  | [] => d
  | var :: vars =>
      match rem !! i with
      | None => d
      | Some v => fill_params (S i) vars rem (<[var := v]> d)
      end
  end.

(** The result is the new parameter dictionary; the remainder reference
    is passed through unchanged. *)
Definition _get_params_with_argspec (f : func) (params remainder : nat)
    (σ : store) : bound :=
  match dict_copy params σ with
  | None => BindRaised TypeError σ
  | Some (params', σ1) =>
      let '(argspec, σ2) := _get_argspec f σ1 in
      let argvars := slice_from 1 (spec_args argspec) in
      match lists σ2 !! remainder with
      | None => BindRaised TypeError σ2
      | Some rem =>
          if bool_decide (argvars ≠ []) then
            let d := default ∅ (dicts σ2 !! params') in
            Bound params' remainder
              (set_dicts (<[params' := fill_params 0 argvars rem d]> (dicts σ2)) σ2)
          else Bound params' remainder σ2
      end
  end.

(** First loop of [_remove_argspec_params_from_params]:
    [remainder[i] = params[var]; del params[var]]. Both objects are
    written in place, so an exception leaves what was written before
    it: the loop returns the exception, if any, with both contents. *)
Fixpoint move_required (i : nat) (required_vars : list string)
    (d : gmap string pyval) (rem : list pyval)
    : option exn * gmap string pyval * list pyval :=
  match required_vars with
  | [] => (None, d, rem)
  | var :: vars =>
      match d !! var with
      | None => (Some (KeyError var), d, rem)
      | Some v =>
          if bool_decide (i < length rem)
          then move_required (S i) vars (delete var d) (<[i := v]> rem)
          else (Some IndexError, d, rem)
      end
  end.

(** Second loop: [if var in params: del params[var]]. *)
Definition drop_optional (optional_vars : list string)
    (d : gmap string pyval) : gmap string pyval :=
  foldl (λ d var, delete var d) d optional_vars.

Definition _remove_argspec_params_from_params (f : func)
    (params remainder : nat) (σ : store) : bound :=
  let '(argspec, σ1) := _get_argspec f σ in
  let argvars := slice_from 1 (spec_args argspec) in
  match lists σ1 !! remainder with
  | None => BindRaised TypeError σ1
  | Some rem =>
      if bool_decide (argvars = []) || bool_decide (rem = []) then
        Bound params remainder σ1
      else
        let argvals := default [] (spec_defaults argspec) in
        let '(required_vars, optional_vars) :=
          if bool_decide (argvals ≠ [])
          then (slice_to (length argvals - 1) argvars,
                slice_from (length argvals - 1) argvars)
          else (argvars, []) in
        match dict_copy params σ1 with
        | None => BindRaised TypeError σ1
        | Some (params', σ2) =>
            let d := default ∅ (dicts σ2 !! params') in
            let '(raised, d', rem') := move_required 0 required_vars d rem in
            let σ3 := set_lists (<[remainder := rem']> (lists σ2)) σ2 in
            match raised with
            | Some e =>
                BindRaised e (set_dicts (<[params' := d']> (dicts σ3)) σ3)
            | None =>
                Bound params' remainder
                  (set_dicts (<[params' := drop_optional optional_vars d']> (dicts σ3)) σ3)
            end
        end
  end.

End Binding.

(** ** The ordered dictionary of visited controllers *)

(** Identity of a Python object of the controller graph. *)
Definition obj := nat.

(** Modelled from the spec: [tg.util.odict], the class of
    [DispatchState.controller_path], is not among the sources. The
    specification describes [visitedControllers] as an ordered mapping
    from the segment at which a controller was entered to the controller,
    to which [addController] appends and whose most recently added entry
    is the current controller. Keys are unique as in any mapping, so
    setting a key that is already present moves it to the end. *)
Module odict.
Definition t := list (string * obj).
Definition empty : t := [].
(** [od[key] = value] *)
Definition setitem (key : string) (value : obj) (od : t) : t :=
  filter (λ kv, kv.1 ≠ key) od ++ [(key, value)].
(** [od.getitem(-1)] *)
Definition getitem_last (od : t) : option obj := snd <$> last od.
(** [od.pop()]: drops the last entry. *)
Definition pop (od : t) : t := removelast od.
(** [len(od)] *)
Definition len (od : t) : nat := length od.
Definition values (od : t) : list obj := od.*2.
End odict.

(** ** [DispatchState] *)

Record DispatchState := mkState {
  url_path : list string;
  params : gmap string pyval;
  controller_path : odict.t;
  routing_args : gmap string pyval;
  method : option obj;
  remainder : option (list string);
  dispatcher : option obj
}.

(** [DispatchState.__init__] *)
Definition DispatchState_init (url_path : list string)
    (params : gmap string pyval) : DispatchState :=
  mkState url_path params odict.empty ∅ None None None.

Definition set_url_path (u : list string) (s : DispatchState) : DispatchState :=
  mkState u (params s) (controller_path s) (routing_args s) (method s)
    (remainder s) (dispatcher s).
Definition set_controller_path (cp : odict.t) (s : DispatchState) : DispatchState :=
  mkState (url_path s) (params s) cp (routing_args s) (method s)
    (remainder s) (dispatcher s).
Definition set_routing_args (ra : gmap string pyval) (s : DispatchState)
    : DispatchState :=
  mkState (url_path s) (params s) (controller_path s) ra (method s)
    (remainder s) (dispatcher s).
Definition set_dispatcher (d : obj) (s : DispatchState) : DispatchState :=
  mkState (url_path s) (params s) (controller_path s) (routing_args s)
    (method s) (remainder s) (Some d).

Definition add_controller (location : string) (controller : obj)
    (s : DispatchState) : DispatchState :=
  set_controller_path (odict.setitem location controller (controller_path s)) s.

Definition add_method (m : obj) (rem : list string) (s : DispatchState)
    : DispatchState :=
  mkState (url_path s) (params s) (controller_path s) (routing_args s)
    (Some m) (Some rem) (dispatcher s).

(** The [controller] property: [controller_path.getitem(-1)], which
    raises on an empty path. *)
Definition controller (s : DispatchState) : option obj :=
  odict.getitem_last (controller_path s).

(** The loop of [add_routing_args]. [i] is the value the Python variable
    [i] holds when the loop is entered at index [k]; the result is its
    value when the loop is left, with the routing arguments. *)
Fixpoint bind_fixed_args (i k : nat) (fixed_args : list string)
    (rem : list string) (ra : gmap string pyval) : nat * gmap string pyval :=
  match fixed_args with
  | [] => (i, ra)
  | arg :: args =>
      match rem !! k with
      | None => (k, ra)
      | Some v => bind_fixed_args k (S k) args rem (<[arg := VStr v]> ra)
      end
  end.

Definition add_routing_args (current_path : string) (rem : list string)
    (fixed_args : list string) (var_args : bool) (s : DispatchState)
    : DispatchState :=
  let '(i, ra) := bind_fixed_args 0 0 fixed_args rem (routing_args s) in
  let rem' := slice_from i rem in
  if var_args && bool_decide (rem' ≠ [])
  then set_routing_args (<[current_path := VList rem']> ra) s
  else set_routing_args ra s.

(** ** The controller graph *)

(** What dispatch can observe of a Python object: its attributes, what
    [inspect.ismethod] and [inspect.isclass] say of it, and what calling
    it does: [instantiate] is the result of calling a class without
    arguments, [call_raises] tells whether calling the object without
    arguments raises (a [_check_security] hook that denies), and
    [call_lookup] is the pair it returns when called as a [lookup]. *)
Record pyobject := mkObject {
  attrs : gmap string obj;
  ismethod : bool;
  isclass : bool;
  instantiate : obj;
  call_raises : bool;
  call_lookup : list string → obj * list string
}.

Definition graph := obj → pyobject.

(** Calls into the controllers and updates of the visited stack, in the
    order in which a dispatch makes them. *)
Inductive event :=
| EvCheckSecurity (o : obj)
| EvInstantiate (cls : obj)
| EvLookup (c : obj) (args : list string)
| EvAddController (location : string) (c : obj)
| EvAddMethod (m : obj) (rem : list string)
| EvPop (c : obj).

#[global] Instance event_eq_dec : EqDecision event.
Proof. solve_decision. Defined.

Record world := mkWorld {
  state : DispatchState;
  trace : list event
}.

Definition log (e : event) (w : world) : world :=
  mkWorld (state w) (trace w ++ [e]).
Definition upd (f : DispatchState → DispatchState) (w : world) : world :=
  mkWorld (f (state w)) (trace w).

(** How a call of the dispatcher ends. [OutOfFuel] is a recursion deeper
    than the bound given to the model. *)
Inductive outcome :=
| Returned (w : world)
| Raised (e : exn) (w : world)
| OutOfFuel.

(** ** [ObjectDispatcher] *)

Section ObjectDispatcher.

Variable G : graph.

Definition getattr (o : obj) (name : string) : option obj :=
  attrs (G o) !! name.

Definition hasattr (o : obj) (name : string) : bool :=
  bool_decide (is_Some (getattr o name)).

(** [True or None] in the source, read as a truth value. *)
Definition _is_exposed (c : obj) (name : string) : bool :=
  match getattr c name with
  | Some m => ismethod (G m)
  | None => false
  end.

Definition _is_controller (c : obj) (name : string) : bool :=
  match getattr c name with
  | Some m => negb (ismethod (G m))
  | None => false
  end.

(** The attribute of the first exposed name of [methods], or [None]
    when the loop ends without a [return]. *)
Fixpoint _find_first_exposed (c : obj) (methods : list string) : option obj :=
  match methods with
  | [] => None
  | name :: methods =>
      if _is_exposed c name then getattr c name
      else _find_first_exposed c methods
  end.

(** [if hasattr(o, '_check_security'): o._check_security()]. The first
    component tells whether the hook raised. *)
Definition check_security (o : obj) (w : world) : bool * world :=
  match getattr o "_check_security" with
  | Some hook => (call_raises (G hook), log (EvCheckSecurity o) w)
  | None => (false, w)
  end.

Section Bodies.

(** The three methods call one another; [rec self state remainder]
    stands for the call [self._dispatch(state, remainder)]. Every
    [_dispatch] attribute in the graph is taken to be
    [ObjectDispatcher._dispatch]: a controller that overrides it is
    outside the model. *)
Variable rec : obj → world → list string → outcome.

Definition _dispatch_controller (self : obj) (current_path : string)
    (c : obj) (w : world) (rem : list string) : outcome :=
  if hasattr c "_dispatch" then
    let '(c, w) :=
      if isclass (G c)
      then (instantiate (G c), log (EvInstantiate c) w)
      else (c, w) in
    let o := default c (getattr c "im_self") in
    match check_security o w with
    | (true, w) => Raised SecurityRejected w
    | (false, w) =>
        let w := log (EvAddController current_path c)
                   (upd (add_controller current_path c) w) in
        let w := upd (set_dispatcher c) w in
        rec c w rem
    end
  else
    let w := log (EvAddController current_path c)
               (upd (add_controller current_path c) w) in
    rec self w rem.

(** The [for] loop of [_dispatch_first_found_default_or_lookup], with
    [n] iterations left. [orig_url_path] is the list bound to that
    name before the loop; when [copied] is false, [state.url_path] is
    still that same list object, so that the [pop] of the loop
    shortens both and the assignment [state.url_path = orig_url_path]
    changes nothing. *)
Fixpoint search_up (self : obj) (orig_url_path : list string)
    (copied : bool) (n : nat) (w : world) (rem : list string) : outcome :=
  match n with
  | 0 => Raised HTTPNotFound w
  | S n =>
      match controller (state w) with
      | None => Raised IndexError w
      | Some c =>
          if _is_exposed c "default" then
            match getattr c "default" with
            | None => Raised AttributeError w
            | Some m =>
                let w := log (EvAddMethod m rem) (upd (add_method m rem) w) in
                Returned (upd (set_dispatcher self) w)
            end
          else if _is_exposed c "lookup" then
            match getattr c "lookup" with
            | None => Raised AttributeError w
            | Some m =>
                let w := log (EvLookup c rem) w in
                let '(c', rem') := call_lookup (G m) rem in
                let w :=
                  if copied then upd (set_url_path orig_url_path) w else w in
                _dispatch_controller self "lookup" c' w rem'
            end
          else
            let w := log (EvPop c)
                       (upd (λ s, set_controller_path
                                    (odict.pop (controller_path s)) s) w) in
            match last (url_path (state w)) with
            | Some seg =>
                search_up self orig_url_path copied n
                  (upd (set_url_path (removelast (url_path (state w)))) w)
                  (seg :: rem)
            | None => search_up self orig_url_path copied n w rem
            end
      end
  end.

Definition _dispatch_first_found_default_or_lookup (self : obj)
    (w : world) (rem : list string) : outcome :=
  let orig_url_path := url_path (state w) in
  let copied := bool_decide (0 < length rem) in
  let w :=
    if copied
    then upd (set_url_path (slice_to_neg (length rem) orig_url_path)) w
    else w in
  search_up self orig_url_path copied
    (odict.len (controller_path (state w))) w rem.

Definition _dispatch (self : obj) (w : world) (rem : list string)
    : outcome :=
  match controller (state w) with
  | None => Raised IndexError w
  | Some current_controller =>
      match check_security current_controller w with
      | (true, w) => Raised SecurityRejected w
      | (false, w) =>
          match rem with
          | [] =>
              match getattr current_controller "index" with
              | Some m =>
                  Returned (log (EvAddMethod m rem) (upd (add_method m rem) w))
              | None => _dispatch_first_found_default_or_lookup self w rem
              end
          | current_path :: rest =>
              if _is_exposed current_controller current_path then
                match getattr current_controller current_path with
                | None => Raised AttributeError w
                | Some m =>
                    Returned (log (EvAddMethod m rest) (upd (add_method m rest) w))
                end
              else
                match getattr current_controller current_path with
                | Some sub =>
                    _dispatch_controller self current_path sub w rest
                | None => _dispatch_first_found_default_or_lookup self w rem
                end
          end
      end
  end.

End Bodies.

(** [self._dispatch(state, remainder)] with the depth of the recursion
    bounded by [fuel]. *)
Fixpoint dispatch (fuel : nat) (self : obj) (w : world) (rem : list string)
    : outcome :=
  match fuel with
  | 0 => OutOfFuel
  | S fuel => _dispatch (dispatch fuel) self w rem
  end.

End ObjectDispatcher.

(** ** [Dispatcher._get_dispatchable] *)

(** [s.rfind(c)]: the highest index at which [c] occurs, or [-1]. *)
Fixpoint rfind (c : ascii) (s : string) : Z :=
  match s with
  | EmptyString => (-1)%Z
  | String a s' =>
      let r := rfind c s' in
      if (0 <=? r)%Z then (r + 1)%Z
      else if Ascii.eqb a c then 0%Z else (-1)%Z
  end.

(** [c in s] for a one-character [c]. *)
Fixpoint contains (c : ascii) (s : string) : bool :=
  match s with
  | EmptyString => false
  | String a s' => Ascii.eqb a c || contains c s'
  end.

Fixpoint str_take (n : nat) (s : string) : string :=
  match n, s with
  | S n, String a s' => String a (str_take n s')
  | _, _ => EmptyString
  end.

Fixpoint str_drop (n : nat) (s : string) : string :=
  match n, s with
  | S n, String _ s' => str_drop n s'
  | _, _ => s
  end.

(** The position a slice bound [k] denotes in a sequence of length
    [len]: negative bounds count from the end, and all are clamped. *)
Definition slice_bound (k : Z) (len : nat) : nat :=
  Z.to_nat (if (k <? 0)%Z then Z.max 0 (Z.of_nat len + k)
            else Z.min k (Z.of_nat len)).

(** [s[k:]] and [s[:k]] on strings. *)
Definition str_from (k : Z) (s : string) : string :=
  str_drop (slice_bound k (String.length s)) s.
Definition str_to (k : Z) (s : string) : string :=
  str_take (slice_bound k (String.length s)) s.

(** What [_get_dispatchable] leaves behind: the two attributes it sets on
    [pylons.request], the path handed to the dispatch, and how the
    dispatch ended. The join of the controller URL into [pylons.c] is left
    out. *)
Record dispatchable := mkDispatchable {
  response_type : option string;
  response_ext : option string;
  dispatched_path : list string;
  result : outcome
}.

(** The state in which [_get_dispatchable] calls the root's [_dispatch]. *)
Definition start (self : obj) (url_path : list string)
    (request_params : gmap string pyval) : world :=
  upd (set_dispatcher self)
    (log (EvAddController "/" self)
       (upd (add_controller "/" self)
          (mkWorld (DispatchState_init url_path request_params) []))).

(** [state.routing_args.update(params)] on the returned state. *)
Definition update_routing_args (request_params : gmap string pyval)
    (o : outcome) : outcome :=
  match o with
  | Returned w =>
      Returned (upd (λ s, set_routing_args
                            (request_params ∪ routing_args s) s) w)
  | o => o
  end.

Section GetDispatchable.

Variable G : graph.
(** The type that [mimetypes.guess_type] returns for a name, if any. *)
Variable guess_type : string → option string.

(** The first statements of [_get_dispatchable]: the path with its last
    segment cut, the response type and the response extension. *)
Definition strip_extension (url_path : list string)
    : list string * option string * option string :=
  match last url_path with
  | Some last_remainder =>
      if contains "." last_remainder then
        match guess_type last_remainder with
        | Some mime_type =>
            let extension_spot := rfind "." last_remainder in
            let extension := str_from extension_spot last_remainder in
            (<[length url_path - 1 := str_to extension_spot last_remainder]> url_path,
             Some mime_type, Some extension)
        | None => (url_path, None, None)
        end
      else (url_path, None, None)
  | None => (url_path, None, None)
  end.

Definition _get_dispatchable (fuel : nat) (self : obj)
    (url_path : list string) (request_params : gmap string pyval)
    : dispatchable :=
  let '(url_path, rtype, rext) := strip_extension url_path in
  let w := start self url_path request_params in
  let r :=
    match controller (state w) with
    | None => Raised IndexError w
    | Some c =>
        update_routing_args request_params (dispatch G fuel c w url_path)
    end in
  mkDispatchable rtype rext url_path r.

End GetDispatchable.

(** ** [Dispatcher._perform_call] *)

(** [s.split(sep)] for a separator of one character: never empty. *)
Fixpoint split_on (sep : ascii) (s : string) : list string :=
  match s with
  | EmptyString => [EmptyString]
  | String a s' =>
      if Ascii.eqb a sep then EmptyString :: split_on sep s'
      else match split_on sep s' with
           | x :: xs => String a x :: xs
           | [] => [String a EmptyString]
           end
  end.

(** [sep.join(l)] *)
Fixpoint join (sep : string) (l : list string) : string :=
  match l with
  | [] => EmptyString
  | [x] => x
  | x :: l' => x +:+ sep +:+ join sep l'
  end.

(** The URL path that [_perform_call] computes from
    [pylons.request.path]: the pieces after the first one, without a last
    empty piece. [url_path[-1]] raises on an empty list. *)
Definition request_url_path (path : string) : exn + list string :=
  let url_path := slice_from 1 (split_on "/" path) in
  match last url_path with
  | None => inl IndexError
  | Some seg =>
      inr (if String.eqb seg EmptyString then removelast url_path else url_path)
  end.

(** [_perform_call] up to the call of [_get_dispatchable]; the lifecycle
    hooks and the call of the handler that follow are calls into the
    application. *)
Definition _perform_call (G : graph) (guess_type : string → option string)
    (fuel : nat) (self : obj) (path : string)
    (request_params : gmap string pyval) : exn + dispatchable :=
  match request_url_path path with
  | inl e => inl e
  | inr url_path =>
      inr (_get_dispatchable G guess_type fuel self url_path request_params)
  end.

(** ** Predicates used in the statements *)

(** The [_check_security] hook of [o], if it has one, lets the request
    through. *)
Definition passes (G : graph) (o : obj) : Prop :=
  ∀ hook, getattr G o "_check_security" = Some hook → call_raises (G hook) = false.

(** A controller instance: not a method, not a class, without [im_self]. *)
Definition instance (G : graph) (c : obj) : Prop :=
  ismethod (G c) = false ∧ isclass (G c) = false ∧ getattr G c "im_self" = None.

(** The fallback search passes over [c]: it exposes neither [default] nor
    [lookup]. *)
Definition silent (G : graph) (c : obj) : Prop :=
  _is_exposed G c "default" = false ∧ _is_exposed G c "lookup" = false.

#[global] Instance silent_dec G c : Decision (silent G c).
Proof. unfold silent. apply _. Defined.

Definition is_add_method (e : event) : bool :=
  match e with EvAddMethod _ _ => true | _ => false end.
Definition is_pop (e : event) : bool :=
  match e with EvPop _ => true | _ => false end.

(** Two calls end alike: with the same handler and remainder, or with the
    same exception, or both beyond the recursion bound. *)
Definition same_resolution (o1 o2 : outcome) : Prop :=
  match o1, o2 with
  | Returned w1, Returned w2 =>
      method (state w1) = method (state w2)
      ∧ remainder (state w1) = remainder (state w2)
  | Raised e1 _, Raised e2 _ => e1 = e2
  | OutOfFuel, OutOfFuel => True
  | _, _ => False
  end.

(** [w1] is reached from [w] by steps that resolve nothing: the trace grew
    by events other than [add_method], handler and remainder are as they
    were. *)
Definition calm (w w1 : world) : Prop :=
  (∃ evs, trace w1 = trace w ++ evs ∧ Forall (λ e, is_add_method e = false) evs)
  ∧ method (state w1) = method (state w)
  ∧ remainder (state w1) = remainder (state w).

(** A call that started in [w] made at most one [add_method], and made it
    as its very last step: a call that returns has made exactly one and
    nothing after it, a call that raises has made none. *)
Definition resolved_once (w : world) (o : outcome) : Prop :=
  match o with
  | Returned w' =>
      ∃ evs m r, trace w' = trace w ++ evs ++ [EvAddMethod m r]
                 ∧ Forall (λ e, is_add_method e = false) evs
                 ∧ method (state w') = Some m
                 ∧ remainder (state w') = Some r
  | Raised _ w' => calm w w'
  | OutOfFuel => True
  end.

(** Two states hold the same handler and remainder. *)
Definition agree (w1 w2 : world) : Prop :=
  method (state w1) = method (state w2)
  ∧ remainder (state w1) = remainder (state w2).

(** No controller was popped off the visited stack. *)
Definition no_pop (w : world) : Prop :=
  Forall (λ e, is_pop e = false) (trace w).

(** The current controller [c] has nothing for the remainder: no [index]
    when the remainder is empty, no attribute named by its first segment
    otherwise. *)
Definition no_match (G : graph) (c : obj) (rem : list string) : Prop :=
  match rem with
  | [] => getattr G c "index" = None
  | seg :: _ => getattr G c seg = None
  end.

(** The part of the URL path that the fallback search walks back over:
    the path without the segments still in the remainder. *)
Definition consumed (url_path rem : list string) : list string :=
  if bool_decide (0 < length rem)
  then slice_to_neg (length rem) url_path else url_path.

(** The remainder after the search went up [k] controllers: the last [k]
    consumed segments, in their order, before the remainder. *)
Definition backtracked (k : nat) (up rem : list string) : list string :=
  drop (length up - k) up ++ rem.

(** No object of the graph exposes a [lookup]. *)
Definition lookup_free (G : graph) : Prop :=
  ∀ c, _is_exposed G c "lookup" = false.

(** The state in which a call ended, if it ended. *)
Definition final (o : outcome) : option world :=
  match o with
  | Returned w => Some w
  | Raised _ w => Some w
  | OutOfFuel => None
  end.

(** Every controller on the visited stack lets the request through. *)
Definition stack_passes (G : graph) (w : world) : Prop :=
  Forall (passes G) (odict.values (controller_path (state w))).

(** All controllers under the current one let the request through. *)
Definition below_passes (G : graph) (w : world) : Prop :=
  Forall (passes G) (odict.values (removelast (controller_path (state w)))).

(** The handler of [w] is an attribute of its current controller. *)
Definition handler_of_current (G : graph) (w : world) : Prop :=
  ∃ c name m, controller (state w) = Some c
              ∧ getattr G c name = Some m ∧ method (state w) = Some m.

(** A call that returns leaves a stack of controllers that all let the
    request through, with the handler on the current one. *)
Definition secured (G : graph) (o : outcome) : Prop :=
  match o with
  | Returned w' => stack_passes G w' ∧ handler_of_current G w'
  | _ => True
  end.

(** A call that started in [w] left the request parameters and the
    routing arguments of the state as they were. *)
Definition framed (w : world) (o : outcome) : Prop :=
  ∀ w', final o = Some w' →
        params (state w') = params (state w)
        ∧ routing_args (state w') = routing_args (state w).

(** A call that returns leaves a remainder that is an end of [path]. *)
Definition suffixed (path : list string) (o : outcome) : Prop :=
  match o with
  | Returned w' => ∃ r, remainder (state w') = Some r ∧ r `suffix_of` path
  | _ => True
  end.

(** ** Example controllers *)

(** An instance with the given attributes, and a bound method. *)
Definition instance_of (a : gmap string obj) : pyobject :=
  mkObject a false false 0 false (λ _, (0, [])).
Definition method_obj : pyobject :=
  mkObject ∅ true false 0 false (λ _, (0, [])).
Definition denying_hook : pyobject :=
  mkObject ∅ true false 0 true (λ _, (0, [])).
Definition lookup_method (c : obj) (rem : list string) : pyobject :=
  mkObject ∅ true false 0 false (λ _, (c, rem)).

(** Root [0] with [a] = [1], which has [b] = [2], which has [c] = [3] and
    a [default] method [4]; [9] is the [_dispatch] method. *)
Definition chain_graph : graph := λ o,
  match o with
  | 0 => instance_of {[ "a" := 1; "_dispatch" := 9 ]}
  | 1 => instance_of {[ "b" := 2; "_dispatch" := 9 ]}
  | 2 => instance_of {[ "c" := 3; "default" := 4; "_dispatch" := 9 ]}
  | 3 => instance_of {[ "_dispatch" := 9 ]}
  | _ => method_obj
  end.

(** Root [0] whose [lookup] method [5] answers controller [1] with the
    remainder [y]; [1] has a [default] method [6] and a sub-controller
    [y] = [2] without anything. *)
Definition lookup_graph : graph := λ o,
  match o with
  | 0 => instance_of {[ "lookup" := 5; "_dispatch" := 9 ]}
  | 1 => instance_of {[ "y" := 2; "default" := 6; "_dispatch" := 9 ]}
  | 2 => instance_of {[ "_dispatch" := 9 ]}
  | 5 => lookup_method 1 ["y"]
  | _ => method_obj
  end.

(** Root [0] whose [lookup] method [5] answers controller [1] with the
    remainder [go], and [go] is a method [6] of [1]. *)
Definition restart_graph : graph := λ o,
  match o with
  | 0 => instance_of {[ "lookup" := 5; "_dispatch" := 9 ]}
  | 1 => instance_of {[ "go" := 6; "_dispatch" := 9 ]}
  | 5 => lookup_method 1 ["go"]
  | _ => method_obj
  end.

(** The state of a dispatch of [/a/b/c/extra] on [chain_graph] when it
    arrives at controller [3]. *)
Definition chain_world : world :=
  mkWorld
    (mkState ["a"; "b"; "c"; "extra"] ∅
       [("/", 0); ("a", 1); ("b", 2); ("c", 3)] ∅ None None (Some 3))
    [].

(** Root [0] with a [_check_security] hook [7] that passes, which is also
    what the segment [_check_security] resolves to, and with a [lookup]
    method [5]. *)
Definition hooks_graph : graph := λ o,
  match o with
  | 0 => instance_of {[ "_check_security" := 7; "lookup" := 5; "_dispatch" := 9 ]}
  | 5 => lookup_method 0 []
  | _ => method_obj
  end.

(** Root [0] whose [_check_security] hook [8] denies, with a
    sub-controller [a] = [1]. *)
Definition guarded_graph : graph := λ o,
  match o with
  | 0 => instance_of {[ "_check_security" := 8; "a" := 1; "lookup" := 5;
                        "_dispatch" := 9 ]}
  | 1 => instance_of {[ "index" := 4; "_check_security" := 7; "_dispatch" := 9 ]}
  | 5 => lookup_method 1 []
  | 8 => denying_hook
  | _ => method_obj
  end.

(** A table for [mimetypes.guess_type] that knows [.json] names. *)
Definition json_only (name : string) : option string :=
  if String.eqb (str_from (rfind "." name) name) ".json"
  then Some "application/json" else None.

(** [inspect.getargspec] of [def f(self, a, b='1')] for every function. *)
Definition one_default (_ : func) : ArgSpec :=
  mkArgSpec ["self"; "a"; "b"] None None (Some [VStr "1"]).

(** Root [0] with a sub-controller [sub] = [1] whose [_check_security]
    hook [8] denies and which has an [index] [4]. *)
Definition gated_graph : graph := λ o,
  match o with
  | 0 => instance_of {[ "sub" := 1; "_dispatch" := 9 ]}
  | 1 => instance_of {[ "index" := 4; "_check_security" := 8; "_dispatch" := 9 ]}
  | 8 => denying_hook
  | _ => method_obj
  end.

(** Root [0] whose [lookup] method [5] answers controller [1] with an
    empty remainder; [1] has nothing. *)
Definition loop_graph : graph := λ o,
  match o with
  | 0 => instance_of {[ "lookup" := 5; "_dispatch" := 9 ]}
  | 1 => instance_of {[ "_dispatch" := 9 ]}
  | 5 => lookup_method 1 []
  | _ => method_obj
  end.

(** Root [0] with a sub-controller named [lookup] = [1], whose [lookup]
    method [5] answers controller [2] with an empty remainder; [2] has
    nothing. *)
Definition collide_graph : graph := λ o,
  match o with
  | 0 => instance_of {[ "lookup" := 1; "_dispatch" := 9 ]}
  | 1 => instance_of {[ "lookup" := 5; "_dispatch" := 9 ]}
  | 2 => instance_of {[ "_dispatch" := 9 ]}
  | 5 => lookup_method 2 []
  | _ => method_obj
  end.

(** [inspect.getargspec] of [def f(self, name, age)] for every function. *)
Definition name_age (_ : func) : ArgSpec :=
  mkArgSpec ["self"; "name"; "age"] None None None.

(** * Properties *)

(** ** Argument binding *)

Lemma dict_copy_spec p σ p' σ' :
  dict_copy p σ = Some (p', σ') →
  p' = length (dicts σ) ∧ p < length (dicts σ)
  ∧ ∃ d, dicts σ !! p = Some d ∧ dicts σ' = dicts σ ++ [d]
  ∧ lists σ' = lists σ.
Proof.
  unfold dict_copy. destruct (dicts σ !! p) as [d|] eqn:E; simpl; [|done].
  intros [= <- <-]. split; [done|]. split; [by eapply lookup_lt_Some|].
  exists d. by simpl.
Qed.

Lemma get_argspec_dicts getargspec f σ :
  dicts (_get_argspec getargspec f σ).2 = dicts σ
  ∧ lists (_get_argspec getargspec f σ).2 = lists σ.
Proof. unfold _get_argspec. by destruct (_ !! f). Qed.

(** Writing the copy leaves the entry of the original as it was. *)
Lemma write_copy_frame (ds : list (gmap string pyval)) d d' p :
  p < length ds → <[length ds := d']> (ds ++ [d]) !! p = ds !! p.
Proof.
  intros Hp. rewrite list_lookup_insert_ne by lia. by apply lookup_app_l.
Qed.

(** C9: neither [_get_params_with_argspec] nor
    [_remove_argspec_params_from_params] changes the dictionary object it
    was given: whatever the function, the store and the two references,
    and whether the call returns or raises, the caller's dictionary holds
    the same items after the call as before. *)
Theorem binding_keeps_caller_params getargspec f params remainder σ :
  dicts (bound_store (_get_params_with_argspec getargspec f params remainder σ))
    !! params = dicts σ !! params
  ∧ dicts (bound_store
             (_remove_argspec_params_from_params getargspec f params remainder σ))
    !! params = dicts σ !! params.
Proof.
  split.
  - unfold _get_params_with_argspec.
    destruct (dict_copy params σ) as [[p' σ1]|] eqn:Hc; [|done].
    apply dict_copy_spec in Hc as (-> & Hlt & d & Hd & Hds & _).
    pose proof (get_argspec_dicts getargspec f σ1) as [Hg _].
    destruct (_get_argspec getargspec f σ1) as [a σ2]; simpl in Hg.
    destruct (lists σ2 !! remainder); simpl; [|by rewrite Hg, Hds, lookup_app_l].
    case_bool_decide; simpl.
    + rewrite Hg, Hds. by apply write_copy_frame.
    + by rewrite Hg, Hds, lookup_app_l.
  - unfold _remove_argspec_params_from_params.
    pose proof (get_argspec_dicts getargspec f σ) as [Hg _].
    destruct (_get_argspec getargspec f σ) as [a σ1]; simpl in Hg.
    destruct (lists σ1 !! remainder) as [rem|]; simpl; [|by rewrite Hg].
    destruct (_ || _); simpl; [by rewrite Hg|].
    destruct (if bool_decide _ then _ else _) as [req opt].
    destruct (dict_copy params σ1) as [[p' σ2]|] eqn:Hc; simpl; [|by rewrite Hg].
    apply dict_copy_spec in Hc as (-> & Hlt & d & Hd & Hds & _).
    destruct (move_required _ _ _ _) as [[[e|] d'] rem']; simpl;
      rewrite Hds, write_copy_frame by done; by rewrite Hg.
Qed.

(** C4: for [def f(self, a, b='1')], the parameters [{a: 'x'}] and the
    remainder [['r']], [_remove_argspec_params_from_params] returns the
    empty dictionary and the remainder unchanged: the required parameter
    [a] is deleted as if it were optional and its value is in neither
    result. *)
Theorem remove_argspec_loses_required :
  let σ := mkStore [ {[ "a" := VStr "x" ]} ] [ [VStr "r"] ] None in
  ∃ σ', _remove_argspec_params_from_params one_default 0 0 0 σ = Bound 1 0 σ'
        ∧ dicts σ' !! 1 = Some ∅
        ∧ lists σ' !! 0 = Some [VStr "r"]
        ∧ dicts σ' !! 0 = Some {[ "a" := VStr "x" ]}.
Proof. eexists. split; [vm_compute; reflexivity|]. by vm_compute. Qed.

(** ** Routing arguments *)

(** C5: [add_routing_args('p', ['1', '2'], ['x'], True)] on a new state
    binds [x] to ['1'] and stores the whole remainder [['1', '2']] under
    [p], the entry bound to [x] included. *)
Theorem add_routing_args_keeps_bound_entry :
  routing_args
    (add_routing_args "p" ["1"; "2"] ["x"] true (DispatchState_init [] ∅))
  = {[ "x" := VStr "1"; "p" := VList ["1"; "2"] ]}.
Proof. by vm_compute. Qed.

(** ** Exposure and the security gate *)

Lemma is_exposed_iff G c name :
  _is_exposed G c name = true ↔
  ∃ m, getattr G c name = Some m ∧ ismethod (G m) = true.
Proof.
  unfold _is_exposed. destruct (getattr G c name) as [m|].
  - split; [eauto | by intros (? & [= <-] & ?)].
  - split; [done | by intros (? & ? & ?)].
Qed.

Lemma check_security_passes G o w :
  passes G o →
  ∃ w', check_security G o w = (false, w') ∧ state w' = state w
        ∧ ∃ evs, trace w' = trace w ++ evs
                 ∧ Forall (λ e, is_add_method e = false ∧ is_pop e = false) evs.
Proof.
  intros Hp. unfold check_security.
  destruct (getattr G o "_check_security") as [hook|] eqn:E.
  - rewrite (Hp _ E). eexists. split; [done|]. split; [done|].
    eexists. split; [done|]. by repeat constructor.
  - eexists. split; [done|]. split; [done|]. exists [].
    by rewrite app_nil_r.
Qed.

(** C10: [_is_exposed] is true exactly for the names at which the
    controller has an attribute that is a method, and no marking is
    consulted: when the first segment names any such method of the current
    controller (for one, [_check_security], [lookup] or [_dispatch]) and
    the security hook lets the request through, [_dispatch] resolves to
    that method with the rest of the segments as remainder. *)
Theorem any_method_is_exposed G c name :
  (_is_exposed G c name = true ↔
   ∃ m, getattr G c name = Some m ∧ ismethod (G m) = true)
  ∧ ∀ rec self w rest m,
      controller (state w) = Some c →
      passes G c →
      getattr G c name = Some m →
      ismethod (G m) = true →
      ∃ w', _dispatch G rec self w (name :: rest) = Returned w'
            ∧ method (state w') = Some m
            ∧ remainder (state w') = Some rest.
Proof.
  split; [apply is_exposed_iff|].
  intros rec self w rest m Hc Hp Hm Hmeth. unfold _dispatch. rewrite Hc.
  destruct (check_security_passes G c w Hp) as (w1 & -> & _).
  assert (_is_exposed G c name = true) as -> by (apply is_exposed_iff; eauto).
  rewrite Hm. by eexists.
Qed.

Lemma any_method_is_exposed_witness :
  ∃ w', _dispatch hooks_graph (λ _ _ _, OutOfFuel) 0 (start 0 ["_check_security"] ∅)
          ["_check_security"] = Returned w'
        ∧ method (state w') = Some 7 ∧ remainder (state w') = Some [].
Proof.
  apply (proj2 (any_method_is_exposed hooks_graph 0 "_check_security")).
  - reflexivity.
  - intros hook. vm_compute. by intros [= <-].
  - reflexivity.
  - reflexivity.
Defined.

(** C6: when the [_check_security] hook of the root raises, the dispatch
    started by [_get_dispatchable] ends with that exception for every
    graph, path and depth bound. No handler is resolved, and the hook of
    the root is the only call made into the graph: no other security
    check, no [lookup], and no controller is entered. *)
Theorem root_denial_short_circuits G guess_type fuel root url_path request_params hook :
  getattr G root "_check_security" = Some hook →
  call_raises (G hook) = true →
  ∃ w, result (_get_dispatchable G guess_type (S fuel) root url_path request_params)
         = Raised SecurityRejected w
       ∧ method (state w) = None
       ∧ remainder (state w) = None
       ∧ odict.values (controller_path (state w)) = [root]
       ∧ trace w = [EvAddController "/" root; EvCheckSecurity root].
Proof.
  intros Hh Hr. unfold _get_dispatchable.
  destruct (strip_extension guess_type url_path) as [[p rt] re]. simpl.
  unfold _dispatch, check_security. simpl. rewrite Hh, Hr.
  by eexists.
Qed.

Lemma root_denial_short_circuits_witness :
  ∃ w, result (_get_dispatchable guarded_graph json_only 5 0 ["a"] ∅)
         = Raised SecurityRejected w
       ∧ method (state w) = None
       ∧ remainder (state w) = None
       ∧ odict.values (controller_path (state w)) = [0]
       ∧ trace w = [EvAddController "/" 0; EvCheckSecurity 0].
Proof.
  apply (root_denial_short_circuits guarded_graph json_only 4 0 ["a"] ∅ 8);
    reflexivity.
Defined.

(** ** The handler is resolved once *)

Lemma calm_refl w : calm w w.
Proof. split; [|done]. exists []. by rewrite app_nil_r. Qed.

Lemma calm_trans w1 w2 w3 : calm w1 w2 → calm w2 w3 → calm w1 w3.
Proof.
  intros [(e1 & H1 & F1) [M1 R1]] [(e2 & H2 & F2) [M2 R2]].
  split; [|split; congruence].
  exists (e1 ++ e2). rewrite H2, H1, app_assoc. split; [done|].
  by apply Forall_app.
Qed.

Lemma calm_log e w : is_add_method e = false → calm w (log e w).
Proof. intros He. split; [|done]. exists [e]. split; [done|]. by constructor. Qed.

Lemma calm_upd f w :
  (∀ s, method (f s) = method s ∧ remainder (f s) = remainder s) →
  calm w (upd f w).
Proof.
  intros Hf. destruct (Hf (state w)). split; [|done].
  exists []. by rewrite app_nil_r.
Qed.

Lemma once_calm w w1 o : calm w w1 → resolved_once w1 o → resolved_once w o.
Proof.
  intros Hc. destruct o as [w'|e w'|]; simpl; [| |done].
  - destruct Hc as [(e1 & H1 & F1) _].
    intros (evs & m & r & Ht & Hf & Hm & Hr).
    exists (e1 ++ evs), m, r. rewrite Ht, H1, !app_assoc.
    split; [done|]. split; [by apply Forall_app|done].
  - by apply calm_trans.
Qed.

Lemma once_add w m r :
  resolved_once w (Returned (log (EvAddMethod m r) (upd (add_method m r) w))).
Proof. exists [], m, r. by simpl. Qed.

Lemma check_security_calm G o w : calm w (check_security G o w).2.
Proof.
  unfold check_security. destruct (getattr G o "_check_security"); simpl.
  - by apply calm_log.
  - apply calm_refl.
Qed.

Section Once.

Variable G : graph.
Variable rec : obj → world → list string → outcome.
Hypothesis rec_once : ∀ self w rem, resolved_once w (rec self w rem).

Lemma enter_calm k c w :
  calm w (log (EvAddController k c) (upd (add_controller k c) w)).
Proof.
  eapply calm_trans; [apply (calm_upd (add_controller k c)); done|].
  by apply calm_log.
Qed.

Lemma dispatch_controller_once self k c w rem :
  resolved_once w (_dispatch_controller G rec self k c w rem).
Proof.
  unfold _dispatch_controller. destruct (hasattr G c "_dispatch").
  - set (cw := if isclass (G c) then _ else _).
    assert (calm w cw.2) as Hcw.
    { subst cw. destruct (isclass (G c)); simpl;
        [by apply calm_log | apply calm_refl]. }
    destruct cw as [c1 w1]; simpl in Hcw.
    pose proof (check_security_calm G (default c1 (getattr G c1 "im_self")) w1) as Hs.
    destruct (check_security _ _ w1) as [[|] w2]; simpl in Hs.
    + simpl. by eapply calm_trans.
    + eapply once_calm; [|apply rec_once].
      eapply calm_trans; [exact Hcw|]. eapply calm_trans; [exact Hs|].
      eapply calm_trans; [apply enter_calm|].
      by apply (calm_upd (set_dispatcher c1)).
  - eapply once_calm; [apply enter_calm | apply rec_once].
Qed.

Lemma search_up_once self orig copied n w rem :
  resolved_once w (search_up G rec self orig copied n w rem).
Proof.
  revert w rem. induction n as [|n IH]; intros w rem.
  { apply calm_refl. }
  cbn [search_up].
  destruct (controller (state w)) as [c|]; [|apply calm_refl].
  destruct (_is_exposed G c "default").
  { destruct (getattr G c "default") as [m|]; [|apply calm_refl].
    exists [], m, rem. by simpl. }
  destruct (_is_exposed G c "lookup").
  { destruct (getattr G c "lookup") as [m|]; [|apply calm_refl].
    destruct (call_lookup (G m) rem) as [c' rem'].
    eapply once_calm; [|apply dispatch_controller_once].
    eapply calm_trans; [by apply (calm_log (EvLookup c rem))|].
    destruct copied; [by apply (calm_upd (set_url_path orig)) | apply calm_refl]. }
  set (w1 := log (EvPop c) _).
  assert (calm w w1) as H1.
  { subst w1. eapply calm_trans; [|by apply calm_log]. by apply calm_upd. }
  destruct (last (url_path (state w1))) as [seg|].
  - eapply once_calm; [|apply IH].
    eapply calm_trans; [exact H1|]. by apply calm_upd.
  - eapply once_calm; [exact H1 | apply IH].
Qed.

Lemma fallback_once self w rem :
  resolved_once w (_dispatch_first_found_default_or_lookup G rec self w rem).
Proof.
  unfold _dispatch_first_found_default_or_lookup.
  case_bool_decide.
  - eapply once_calm; [|apply search_up_once]. by apply calm_upd.
  - apply search_up_once.
Qed.

Lemma dispatch_body_once self w rem :
  resolved_once w (_dispatch G rec self w rem).
Proof.
  unfold _dispatch. destruct (controller (state w)) as [c|]; [|apply calm_refl].
  pose proof (check_security_calm G c w) as Hs.
  destruct (check_security G c w) as [[|] w1]; simpl in Hs; [done|].
  eapply once_calm; [exact Hs|].
  destruct rem as [|seg rest].
  - destruct (getattr G c "index"); [apply once_add | apply fallback_once].
  - destruct (_is_exposed G c seg).
    + destruct (getattr G c seg); [apply once_add | apply calm_refl].
    + destruct (getattr G c seg);
        [apply dispatch_controller_once | apply fallback_once].
Qed.

End Once.

Lemma dispatch_once G fuel self w rem :
  resolved_once w (dispatch G fuel self w rem).
Proof.
  revert self w rem. induction fuel as [|fuel IH]; intros self w rem; simpl.
  - done.
  - by apply dispatch_body_once.
Qed.

(** C7: in every dispatch, from any state, [add_method] is called at most
    once, and nothing runs after it: when the dispatch returns, the trace
    of the call ends with the one [add_method] event, whose handler and
    remainder are those of the returned state; when it raises, there is no
    such event and handler and remainder are untouched. The same holds of
    the fallback search taken alone. *)
Theorem handler_set_at_most_once G fuel self w rem :
  resolved_once w (dispatch G fuel self w rem)
  ∧ resolved_once w
      (_dispatch_first_found_default_or_lookup G (dispatch G fuel) self w rem).
Proof.
  split; [apply dispatch_once|].
  apply fallback_once. intros. apply dispatch_once.
Qed.

(** ** The fallback search *)

Lemma controller_add k c s : controller (add_controller k c s) = Some c.
Proof.
  unfold controller, add_controller, odict.getitem_last, odict.setitem. simpl.
  by rewrite last_snoc.
Qed.

(** The topmost entry of a stack that is not passed over. *)
Lemma topmost_loud G (cp : odict.t) :
  ¬ Forall (silent G) (odict.values cp) →
  ∃ base k c above, cp = base ++ (k, c) :: above
                    ∧ Forall (silent G) (odict.values above) ∧ ¬ silent G c.
Proof.
  induction cp as [|[k c] cp IH] using rev_ind; intros Hn.
  - destruct Hn. constructor.
  - destruct (decide (silent G c)) as [Hs|Hs].
    + destruct IH as (base & k' & c' & above & -> & Ha & Hc).
      { intros Hf. apply Hn. unfold odict.values. rewrite fmap_app.
        apply Forall_app. split; [done|]. simpl. by apply Forall_singleton. }
      exists base, k', c', (above ++ [(k, c)]).
      split; [by rewrite <- app_assoc|]. split; [|done].
      unfold odict.values. rewrite fmap_app. apply Forall_app.
      split; [done|]. simpl. by apply Forall_singleton.
    + exists cp, k, c, []. split; [done|]. split; [constructor|done].
Qed.

Lemma snoc_case {A} (l : list A) : l = [] ∨ ∃ l' x, l = l' ++ [x].
Proof.
  induction l as [|x l _] using rev_ind; [by left | right; eauto].
Qed.

Section Search.

Variable G : graph.
Variable rec : obj → world → list string → outcome.

(** Going up over the controllers [above], all passed over. *)
Lemma search_up_silent self orig copied above :
  ∀ base n w rem,
    controller_path (state w) = base ++ above →
    Forall (silent G) (odict.values above) →
    ∃ w', search_up G rec self orig copied (length above + n) w rem
          = search_up G rec self orig copied n w'
              (backtracked (length above) (url_path (state w)) rem)
        ∧ controller_path (state w') = base
        ∧ url_path (state w')
          = take (length (url_path (state w)) - length above) (url_path (state w))
        ∧ calm w w'.
Proof.
  induction above as [|[k c] above IH] using rev_ind; intros base n w rem Hcp Hs.
  - exists w. simpl. unfold backtracked. rewrite Nat.sub_0_r, drop_all, take_ge by lia.
    rewrite app_nil_r in Hcp. split; [done|]. split; [done|]. split; [done|].
    apply calm_refl.
  - unfold odict.values in Hs. rewrite fmap_app in Hs.
    apply Forall_app in Hs as [Hs Hc]. apply Forall_singleton in Hc as [Hd Hl].
    replace (length (above ++ [(k, c)]) + n) with (S (length above + n))
      by (rewrite length_app; simpl; lia).
    cbn [search_up].
    assert (controller (state w) = Some c) as ->.
    { unfold controller, odict.getitem_last. rewrite Hcp, app_assoc.
      by rewrite last_snoc. }
    simpl in Hd, Hl. rewrite Hd, Hl.
    set (w1 := log (EvPop c) _).
    assert (controller_path (state w1) = base ++ above) as H1.
    { subst w1. simpl. unfold odict.pop. rewrite Hcp, app_assoc.
      by rewrite removelast_last. }
    assert (calm w w1) as Hcalm1.
    { subst w1. eapply calm_trans; [|by apply calm_log]. by apply calm_upd. }
    assert (url_path (state w1) = url_path (state w)) as Hu by done.
    destruct (snoc_case (url_path (state w))) as [Eup | (up0 & s0 & Eup)].
    + rewrite Hu, Eup. simpl.
      destruct (IH base n w1 rem H1 Hs) as (w' & Heq & Hb & Hup & Hcalm).
      exists w'. rewrite Heq, Hu, Eup. unfold backtracked. simpl.
      split; [done|]. split; [done|]. split; [by rewrite Hup, Hu, Eup|].
      by eapply calm_trans.
    + rewrite Hu, Eup, last_snoc, removelast_last.
      set (w2 := upd _ w1).
      assert (url_path (state w2) = up0) as Hu2 by done.
      destruct (IH base n w2 (s0 :: rem) H1 Hs) as (w' & Heq & Hb & Hup & Hcalm).
      exists w'. rewrite Heq, Hu2.
      assert (length (up0 ++ [s0]) - length (above ++ [(k, c)])
              = length up0 - length above) as Hlen
        by (rewrite !length_app; simpl; lia).
      split.
      { f_equal. unfold backtracked. rewrite Hlen.
        rewrite drop_app_le by lia. by rewrite <- app_assoc. }
      split; [done|]. split.
      { rewrite Hup, Hu2, Hlen. by rewrite take_app_le by lia. }
      eapply calm_trans; [exact Hcalm1|].
      eapply calm_trans; [|exact Hcalm]. by apply calm_upd.
Qed.

End Search.

Section Fallback.

Variable G : graph.
Variable rec : obj → world → list string → outcome.

(** The search goes straight to the topmost controller that is not
    passed over. *)
Lemma fallback_topmost self w rem base k c above :
  controller_path (state w) = base ++ (k, c) :: above →
  Forall (silent G) (odict.values above) →
  ∃ w', calm w w'
        ∧ controller (state w') = Some c
        ∧ _dispatch_first_found_default_or_lookup G rec self w rem
          = search_up G rec self (url_path (state w))
              (bool_decide (0 < length rem)) (S (length base)) w'
              (backtracked (length above)
                 (consumed (url_path (state w)) rem) rem).
Proof.
  intros Hcp Hs. unfold _dispatch_first_found_default_or_lookup.
  set (w0 := if bool_decide (0 < length rem) then _ else w).
  assert (controller_path (state w0) = (base ++ [(k, c)]) ++ above) as H0.
  { rewrite <- app_assoc. subst w0. by case_bool_decide. }
  assert (url_path (state w0) = consumed (url_path (state w)) rem) as Hu.
  { subst w0. unfold consumed. by case_bool_decide. }
  assert (calm w w0) as Hc0.
  { subst w0. case_bool_decide; [by apply calm_upd | apply calm_refl]. }
  destruct (search_up_silent G rec self (url_path (state w))
              (bool_decide (0 < length rem)) above (base ++ [(k, c)])
              (S (length base)) w0 rem H0 Hs) as (w' & Heq & Hb & _ & Hc).
  exists w'. split; [by eapply calm_trans|]. split.
  { unfold controller, odict.getitem_last. by rewrite Hb, last_snoc. }
  rewrite <- Hu, <- Heq. f_equal. unfold odict.len.
  rewrite H0, !length_app. simpl. lia.
Qed.

Lemma fallback_exhausted self w rem :
  Forall (silent G) (odict.values (controller_path (state w))) →
  ∃ w', _dispatch_first_found_default_or_lookup G rec self w rem
        = Raised HTTPNotFound w'.
Proof.
  intros Hs. unfold _dispatch_first_found_default_or_lookup.
  set (w0 := if bool_decide (0 < length rem) then _ else w).
  assert (controller_path (state w0) = controller_path (state w)) as H0.
  { subst w0. by case_bool_decide. }
  destruct (search_up_silent G rec self (url_path (state w))
              (bool_decide (0 < length rem)) (controller_path (state w)) []
              0 w0 rem H0 Hs) as (w' & Heq & _).
  exists w'. unfold odict.len. rewrite H0.
  rewrite Nat.add_0_r in Heq. by rewrite Heq.
Qed.

Lemma fallback_default self w rem base k c above m :
  controller_path (state w) = base ++ (k, c) :: above →
  Forall (silent G) (odict.values above) →
  getattr G c "default" = Some m → ismethod (G m) = true →
  ∃ w', _dispatch_first_found_default_or_lookup G rec self w rem = Returned w'
        ∧ method (state w') = Some m
        ∧ remainder (state w')
          = Some (backtracked (length above)
                    (consumed (url_path (state w)) rem) rem).
Proof.
  intros Hcp Hs Hm Hmeth.
  destruct (fallback_topmost self w rem base k c above Hcp Hs)
    as (w' & _ & Hc & ->).
  cbn [search_up]. rewrite Hc.
  assert (_is_exposed G c "default" = true) as ->
    by (apply is_exposed_iff; eauto).
  rewrite Hm. by eexists.
Qed.

Lemma fallback_lookup self w rem base k c above m :
  controller_path (state w) = base ++ (k, c) :: above →
  Forall (silent G) (odict.values above) →
  _is_exposed G c "default" = false →
  getattr G c "lookup" = Some m → ismethod (G m) = true →
  let args := backtracked (length above)
                (consumed (url_path (state w)) rem) rem in
  ∃ w', _dispatch_first_found_default_or_lookup G rec self w rem
        = _dispatch_controller G rec self "lookup"
            (call_lookup (G m) args).1 w' (call_lookup (G m) args).2
        ∧ calm w w'.
Proof.
  intros Hcp Hs Hd Hm Hmeth args.
  destruct (fallback_topmost self w rem base k c above Hcp Hs)
    as (w' & Hcalm & Hc & ->).
  cbn [search_up]. rewrite Hc, Hd.
  assert (_is_exposed G c "lookup" = true) as ->
    by (apply is_exposed_iff; eauto).
  rewrite Hm. fold args. destruct (call_lookup (G m) args) as [c' rem'].
  eexists. split; [done|]. simpl.
  eapply calm_trans; [exact Hcalm|].
  eapply calm_trans; [by apply (calm_log (EvLookup c args))|].
  case_bool_decide; [by apply calm_upd | apply calm_refl].
Qed.

(** With nothing for the remainder at the current controller,
    [_dispatch] is the fallback search. *)
Lemma dispatch_no_match self w c rem :
  controller (state w) = Some c → passes G c → no_match G c rem →
  ∃ w1, state w1 = state w ∧ calm w w1
        ∧ _dispatch G rec self w rem
          = _dispatch_first_found_default_or_lookup G rec self w1 rem.
Proof.
  intros Hc Hp Hn. unfold _dispatch. rewrite Hc.
  pose proof (check_security_calm G c w) as Hcalm.
  destruct (check_security_passes G c w Hp) as (w1 & E & Hst & _).
  rewrite E in Hcalm |- *. exists w1. split; [done|]. split; [done|].
  destruct rem as [|seg rest]; simpl in Hn.
  - by rewrite Hn.
  - unfold _is_exposed. by rewrite Hn.
Qed.

End Fallback.

Lemma dispatch_controller_no_not_found G self k c w rem w' :
  _dispatch_controller G (λ _ _ _, OutOfFuel) self k c w rem
  ≠ Raised HTTPNotFound w'.
Proof.
  unfold _dispatch_controller. destruct (hasattr G c "_dispatch"); [|done].
  destruct (if isclass (G c) then _ else _) as [c1 w1].
  by destruct (check_security _ _ _) as [[|] ?].
Qed.

(** ** Descending a chain of controllers *)

Lemma dispatch_descend G rec self w c seg sub rest :
  controller (state w) = Some c → passes G c →
  getattr G c seg = Some sub → instance G sub → passes G sub →
  ∃ self' w', _dispatch G rec self w (seg :: rest) = rec self' w' rest
              ∧ controller_path (state w')
                = odict.setitem seg sub (controller_path (state w))
              ∧ url_path (state w') = url_path (state w)
              ∧ calm w w'.
Proof.
  intros Hc Hp Hsub (Hnm & Hnc & Hni) Hps. unfold _dispatch. rewrite Hc.
  pose proof (check_security_calm G c w) as Hcalm.
  destruct (check_security_passes G c w Hp) as (w1 & E & Hst & _).
  rewrite E in Hcalm |- *. simpl in Hcalm.
  unfold _is_exposed. rewrite Hsub, Hnm.
  unfold _dispatch_controller. destruct (hasattr G sub "_dispatch").
  - rewrite Hnc, Hni. simpl.
    pose proof (check_security_calm G sub w1) as Hcalm2.
    destruct (check_security_passes G sub w1 Hps) as (w2 & E2 & Hst2 & _).
    rewrite E2 in Hcalm2 |- *. simpl in Hcalm2.
    eexists _, _. split; [done|]. simpl. rewrite Hst2, Hst.
    split; [done|]. split; [done|].
    eapply calm_trans; [exact Hcalm|]. eapply calm_trans; [exact Hcalm2|].
    eapply calm_trans; [apply enter_calm|]. by apply calm_upd.
  - eexists _, _. split; [done|]. simpl. rewrite Hst.
    split; [done|]. split; [done|].
    eapply calm_trans; [exact Hcalm|]. apply enter_calm.
Qed.

Lemma dispatch_S G fuel self w rem :
  dispatch G (S fuel) self w rem = _dispatch G (dispatch G fuel) self w rem.
Proof. reflexivity. Qed.

(** C1: in every graph in which the root has a controller [A] as [a],
    [A] a controller [B] as [b] and [B] a controller [C] as [c], where [C]
    has no attribute [extra] and exposes neither [default] nor [lookup],
    [B] has a [default] method, and no security hook denies, the dispatch
    of [/a/b/c/extra] resolves to the [default] of [B] with the remainder
    [c, extra]: [C] is popped off the stack and the segment that led into
    it goes back in front of the pending one. *)
Theorem chain_falls_back_to_default G guess_type fuel root A B C d request_params :
  passes G root → getattr G root "a" = Some A →
  instance G A → passes G A → getattr G A "b" = Some B →
  instance G B → passes G B → getattr G B "c" = Some C →
  instance G C → passes G C → getattr G C "extra" = None → silent G C →
  getattr G B "default" = Some d → ismethod (G d) = true →
  ∃ w, result (_get_dispatchable G guess_type (4 + fuel) root
                 ["a"; "b"; "c"; "extra"] request_params) = Returned w
       ∧ method (state w) = Some d
       ∧ remainder (state w) = Some ["c"; "extra"].
Proof.
  intros Hp0 Ha HiA HpA Hb HiB HpB Hc HiC HpC Hextra HsC Hd Hmeth.
  unfold _get_dispatchable.
  change (strip_extension guess_type ["a"; "b"; "c"; "extra"])
    with (["a"; "b"; "c"; "extra"], @None string, @None string).
  cbv zeta iota beta.
  set (w0 := start root _ _).
  change (controller (state w0)) with (Some root).
  change (4 + fuel) with (S (S (S (S fuel)))). cbn [result].
  rewrite dispatch_S.
  destruct (dispatch_descend G (dispatch G (S (S (S fuel)))) root w0 root
              "a" A ["b"; "c"; "extra"] eq_refl Hp0 Ha HiA HpA)
    as (s1 & w1 & -> & Hcp1 & Hu1 & _).
  change (controller_path (state w0)) with [("/", root)] in Hcp1.
  replace (odict.setitem "a" A [("/", root)])
    with [("/", root); ("a", A)] in Hcp1 by (by vm_compute). rewrite dispatch_S.
  destruct (dispatch_descend G (dispatch G (S (S fuel))) s1 w1 A
              "b" B ["c"; "extra"]) as (s2 & w2 & -> & Hcp2 & Hu2 & _);
    [by unfold controller; rewrite Hcp1|done..|].
  rewrite Hcp1 in Hcp2.
  replace (odict.setitem "b" B [("/", root); ("a", A)])
    with [("/", root); ("a", A); ("b", B)] in Hcp2 by (by vm_compute). rewrite dispatch_S.
  destruct (dispatch_descend G (dispatch G (S fuel)) s2 w2 B
              "c" C ["extra"]) as (s3 & w3 & -> & Hcp3 & Hu3 & _);
    [by unfold controller; rewrite Hcp2|done..|].
  rewrite Hcp2 in Hcp3.
  replace (odict.setitem "c" C [("/", root); ("a", A); ("b", B)])
    with [("/", root); ("a", A); ("b", B); ("c", C)] in Hcp3
    by (by vm_compute). rewrite dispatch_S.
  destruct (dispatch_no_match G (dispatch G fuel) s3 w3 C ["extra"])
    as (w4 & Hst4 & _ & ->); [by unfold controller; rewrite Hcp3|done..|].
  destruct (fallback_default G (dispatch G fuel) s3 w4 ["extra"]
              [("/", root); ("a", A)] "b" B [("c", C)] d)
    as (w5 & -> & Hm5 & Hr5);
    [by rewrite Hst4|by apply Forall_singleton|done..|].
  eexists. split; [done|]. split; [done|]. simpl. rewrite Hr5.
  rewrite Hst4, Hu3, Hu2, Hu1. reflexivity.
Qed.

Lemma chain_falls_back_to_default_witness :
  ∃ w, result (_get_dispatchable chain_graph json_only 6 0
                 ["a"; "b"; "c"; "extra"] ∅) = Returned w
       ∧ method (state w) = Some 4
       ∧ remainder (state w) = Some ["c"; "extra"].
Proof.
  apply (chain_falls_back_to_default chain_graph json_only 2 0 1 2 3 4 ∅);
    try reflexivity; try (by intros hook); by repeat split.
Defined.

(** ** The outcome of the fallback search *)

Lemma dispatch_controller_enter G rec self k X w rem :
  instance G X → passes G X →
  ∃ self' w', _dispatch_controller G rec self k X w rem = rec self' w' rem
              ∧ self' = (if hasattr G X "_dispatch" then X else self)
              ∧ controller_path (state w')
                = odict.setitem k X (controller_path (state w))
              ∧ url_path (state w') = url_path (state w)
              ∧ calm w w'.
Proof.
  intros (Hnm & Hnc & Hni) Hp. unfold _dispatch_controller.
  destruct (hasattr G X "_dispatch").
  - rewrite Hnc, Hni. simpl.
    pose proof (check_security_calm G X w) as Hcalm.
    destruct (check_security_passes G X w Hp) as (w1 & E & Hst & _).
    rewrite E in Hcalm |- *. simpl in Hcalm.
    eexists _, _. split; [done|]. split; [done|]. simpl. rewrite Hst.
    split; [done|]. split; [done|].
    eapply calm_trans; [exact Hcalm|].
    eapply calm_trans; [apply enter_calm|]. by apply calm_upd.
  - eexists _, _. split; [done|]. split; [done|]. simpl.
    split; [done|]. split; [done|]. apply enter_calm.
Qed.

Lemma dispatch_controller_denied G rec self k X w rem hook :
  instance G X → hasattr G X "_dispatch" = true →
  getattr G X "_check_security" = Some hook → call_raises (G hook) = true →
  ∃ w', _dispatch_controller G rec self k X w rem = Raised SecurityRejected w'
        ∧ state w' = state w ∧ calm w w'.
Proof.
  intros (Hnm & Hnc & Hni) Hd Hh Hr. unfold _dispatch_controller.
  rewrite Hd, Hnc, Hni. simpl. unfold check_security. rewrite Hh, Hr.
  eexists. split; [done|]. split; [done|]. by apply calm_log.
Qed.

Section FallbackOutcome.

Variable G : graph.
Variable rec : obj → world → list string → outcome.

(** The search arrives at the topmost controller that is not passed over
    with the stack popped down to it and the URL path shortened by the
    segments walked back over. *)
Lemma fallback_arrives self w rem base k c above :
  controller_path (state w) = base ++ (k, c) :: above →
  Forall (silent G) (odict.values above) →
  let up := consumed (url_path (state w)) rem in
  ∃ w', calm w w'
        ∧ controller_path (state w') = base ++ [(k, c)]
        ∧ url_path (state w') = take (length up - length above) up
        ∧ _dispatch_first_found_default_or_lookup G rec self w rem
          = search_up G rec self (url_path (state w))
              (bool_decide (0 < length rem)) (S (length base)) w'
              (backtracked (length above) up rem).
Proof.
  intros Hcp Hs up. unfold _dispatch_first_found_default_or_lookup.
  set (w0 := if bool_decide (0 < length rem) then _ else w).
  assert (controller_path (state w0) = (base ++ [(k, c)]) ++ above) as H0.
  { rewrite <- app_assoc. subst w0. by case_bool_decide. }
  assert (url_path (state w0) = up) as Hu.
  { subst w0 up. unfold consumed. by case_bool_decide. }
  assert (calm w w0) as Hc0.
  { subst w0. case_bool_decide; [by apply calm_upd | apply calm_refl]. }
  destruct (search_up_silent G rec self (url_path (state w))
              (bool_decide (0 < length rem)) above (base ++ [(k, c)])
              (S (length base)) w0 rem H0 Hs) as (w' & Heq & Hb & Hup & Hc).
  exists w'. split; [by eapply calm_trans|]. split; [done|].
  split; [by rewrite Hup, Hu|].
  rewrite <- Hu, <- Heq. f_equal. unfold odict.len.
  rewrite H0, !length_app. simpl. lia.
Qed.

(** With no controller left that exposes anything, the search ends the
    dispatch with the stack emptied. *)
Lemma fallback_not_found self w rem :
  Forall (silent G) (odict.values (controller_path (state w))) →
  ∃ w', _dispatch_first_found_default_or_lookup G rec self w rem
        = Raised HTTPNotFound w'
        ∧ controller_path (state w') = [] ∧ calm w w'.
Proof.
  intros Hs. unfold _dispatch_first_found_default_or_lookup.
  set (w0 := if bool_decide (0 < length rem) then _ else w).
  assert (controller_path (state w0) = controller_path (state w)) as H0.
  { subst w0. by case_bool_decide. }
  assert (calm w w0) as Hc0.
  { subst w0. case_bool_decide; [by apply calm_upd | apply calm_refl]. }
  destruct (search_up_silent G rec self (url_path (state w))
              (bool_decide (0 < length rem)) (controller_path (state w)) []
              0 w0 rem H0 Hs) as (w' & Heq & Hb & _ & Hc).
  exists w'. unfold odict.len. rewrite H0.
  rewrite Nat.add_0_r in Heq. rewrite Heq.
  split; [done|]. split; [done|]. by eapply calm_trans.
Qed.

(** A [lookup] at the topmost such controller: the controller it returns
    is entered over the stack popped down to the controller of the
    lookup, and the dispatch goes on there. *)
Lemma fallback_restarts self w rem base k c above m X r :
  controller_path (state w) = base ++ (k, c) :: above →
  Forall (silent G) (odict.values above) →
  _is_exposed G c "default" = false →
  getattr G c "lookup" = Some m → ismethod (G m) = true →
  let up := consumed (url_path (state w)) rem in
  let args := backtracked (length above) up rem in
  call_lookup (G m) args = (X, r) →
  instance G X → passes G X →
  ∃ self' w', _dispatch_first_found_default_or_lookup G rec self w rem
              = rec self' w' r
            ∧ self' = (if hasattr G X "_dispatch" then X else self)
            ∧ controller_path (state w')
              = odict.setitem "lookup" X (base ++ [(k, c)])
            ∧ url_path (state w')
              = (if bool_decide (0 < length rem) then url_path (state w)
                 else take (length up - length above) up)
            ∧ EvLookup c args ∈ trace w'
            ∧ calm w w'.
Proof.
  intros Hcp Hs Hd Hm Hmeth up args Hlk HiX HpX.
  destruct (fallback_arrives self w rem base k c above Hcp Hs)
    as (w1 & Hcalm & Hcp1 & Hu1 & ->).
  fold up args. cbn [search_up].
  assert (controller (state w1) = Some c) as ->.
  { unfold controller, odict.getitem_last. by rewrite Hcp1, last_snoc. }
  rewrite Hd.
  assert (_is_exposed G c "lookup" = true) as ->
    by (apply is_exposed_iff; eauto).
  rewrite Hm, Hlk.
  set (w2 := if bool_decide (0 < length rem) then _ else _).
  assert (controller_path (state w2) = base ++ [(k, c)]) as Hcp2
    by (subst w2; by case_bool_decide).
  assert (url_path (state w2)
          = if bool_decide (0 < length rem) then url_path (state w)
            else take (length up - length above) up) as Hu2
    by (subst w2; by case_bool_decide).
  assert (calm (log (EvLookup c args) w1) w2) as Hc2
    by (subst w2; case_bool_decide; [by apply calm_upd | apply calm_refl]).
  destruct (dispatch_controller_enter G rec self "lookup" X w2 r HiX HpX)
    as (self' & w3 & -> & Hself & Hcp3 & Hu3 & Hc3).
  exists self', w3. split; [done|]. split; [done|].
  split; [by rewrite Hcp3, Hcp2|]. split; [by rewrite Hu3, Hu2|].
  assert (calm (log (EvLookup c args) w1) w3) as Hc13 by by eapply calm_trans.
  split.
  - destruct Hc13 as [(evs & -> & _) _]. simpl.
    apply elem_of_app. left. apply elem_of_app. right. by left.
  - eapply calm_trans; [exact Hcalm|].
    eapply calm_trans; [|exact Hc13]. by apply calm_log.
Qed.

Lemma fallback_restart_denied self w rem base k c above m X r hook :
  controller_path (state w) = base ++ (k, c) :: above →
  Forall (silent G) (odict.values above) →
  _is_exposed G c "default" = false →
  getattr G c "lookup" = Some m → ismethod (G m) = true →
  call_lookup (G m)
    (backtracked (length above) (consumed (url_path (state w)) rem) rem)
  = (X, r) →
  instance G X → hasattr G X "_dispatch" = true →
  getattr G X "_check_security" = Some hook → call_raises (G hook) = true →
  ∃ w', _dispatch_first_found_default_or_lookup G rec self w rem
        = Raised SecurityRejected w'
        ∧ calm w w'.
Proof.
  intros Hcp Hs Hd Hm Hmeth Hlk HiX HdX Hh Hr.
  destruct (fallback_arrives self w rem base k c above Hcp Hs)
    as (w1 & Hcalm & Hcp1 & Hu1 & ->).
  cbn [search_up].
  assert (controller (state w1) = Some c) as ->.
  { unfold controller, odict.getitem_last. by rewrite Hcp1, last_snoc. }
  rewrite Hd.
  assert (_is_exposed G c "lookup" = true) as ->
    by (apply is_exposed_iff; eauto).
  rewrite Hm, Hlk.
  set (w2 := if bool_decide (0 < length rem) then _ else _).
  assert (calm w1 w2) as Hc2.
  { subst w2.
    case_bool_decide; [eapply calm_trans; [|by apply calm_upd]|];
      by apply calm_log. }
  destruct (dispatch_controller_denied G rec self "lookup" X w2 r hook
              HiX HdX Hh Hr) as (w3 & -> & _ & Hc3).
  exists w3. split; [done|].
  eapply calm_trans; [exact Hcalm|]. by eapply calm_trans.
Qed.

End FallbackOutcome.

(** C2, as the code has it: let the current controller have nothing for
    the remainder, so that the dispatch enters the fallback search.
    If no controller on the visited stack exposes [default] or [lookup],
    the dispatch raises [HTTPNotFound], with the stack emptied. If no
    controller on the stack exposes [lookup], the dispatch raises
    [HTTPNotFound] if and only if none exposes [default], and resolves a
    handler otherwise. In general the search stops at the topmost
    controller that exposes one of the two: its [default] is resolved
    with the segments walked back over, in their order, followed by the
    pending ones; with a [lookup] alone the dispatch does not end there:
    the controller that the lookup returns for those segments is checked
    for security and entered under the key [lookup] over the stack popped
    down to the controller of the lookup, and the outcome is that of the
    dispatch that goes on there with the remainder the lookup returned,
    or the exception of its security hook. *)
Theorem fallback_outcome_by_stack G fuel self w c rem :
  controller (state w) = Some c →
  passes G c →
  no_match G c rem →
  let cp := controller_path (state w) in
  let up := consumed (url_path (state w)) rem in
  (Forall (silent G) (odict.values cp) →
   ∃ w', dispatch G (S fuel) self w rem = Raised HTTPNotFound w'
         ∧ controller_path (state w') = [] ∧ calm w w')
  ∧ (Forall (λ d, _is_exposed G d "lookup" = false) (odict.values cp) →
     ((∃ w', dispatch G (S fuel) self w rem = Raised HTTPNotFound w')
      ↔ Forall (silent G) (odict.values cp))
     ∧ (¬ Forall (silent G) (odict.values cp) →
        ∃ w' m, dispatch G (S fuel) self w rem = Returned w'
                ∧ method (state w') = Some m))
  ∧ (∀ base k d above m,
       cp = base ++ (k, d) :: above →
       Forall (silent G) (odict.values above) →
       getattr G d "default" = Some m → ismethod (G m) = true →
       ∃ w', dispatch G (S fuel) self w rem = Returned w'
             ∧ method (state w') = Some m
             ∧ remainder (state w') = Some (backtracked (length above) up rem))
  ∧ (∀ base k d above m X r,
       cp = base ++ (k, d) :: above →
       Forall (silent G) (odict.values above) →
       _is_exposed G d "default" = false →
       getattr G d "lookup" = Some m → ismethod (G m) = true →
       call_lookup (G m) (backtracked (length above) up rem) = (X, r) →
       instance G X →
       (passes G X →
        ∃ self' w',
          dispatch G (S fuel) self w rem = dispatch G fuel self' w' r
          ∧ self' = (if hasattr G X "_dispatch" then X else self)
          ∧ controller_path (state w')
            = odict.setitem "lookup" X (base ++ [(k, d)])
          ∧ url_path (state w')
            = (if bool_decide (0 < length rem) then url_path (state w)
               else take (length up - length above) up)
          ∧ EvLookup d (backtracked (length above) up rem) ∈ trace w'
          ∧ calm w w')
       ∧ (∀ hook, hasattr G X "_dispatch" = true →
                  getattr G X "_check_security" = Some hook →
                  call_raises (G hook) = true →
          ∃ w', dispatch G (S fuel) self w rem = Raised SecurityRejected w'
                ∧ calm w w')).
Proof.
  intros Hc Hp Hn cp up. rewrite dispatch_S.
  destruct (dispatch_no_match G (dispatch G fuel) self w c rem Hc Hp Hn)
    as (w1 & Hst & Hcalm1 & ->).
  assert (controller_path (state w1) = cp) as Hcp1 by by rewrite Hst.
  assert (consumed (url_path (state w1)) rem = up) as Hup1 by by rewrite Hst.
  assert (∀ base k d above m,
            cp = base ++ (k, d) :: above →
            Forall (silent G) (odict.values above) →
            getattr G d "default" = Some m → ismethod (G m) = true →
            ∃ w', _dispatch_first_found_default_or_lookup G (dispatch G fuel)
                    self w1 rem = Returned w'
                  ∧ method (state w') = Some m
                  ∧ remainder (state w')
                    = Some (backtracked (length above) up rem)) as Hdefault.
  { intros base k d above m Hcp Hs Hm Hmeth. rewrite <- Hup1.
    apply (fallback_default G (dispatch G fuel) self w1 rem base k d above m);
      [by rewrite Hcp1|done..]. }
  assert (Forall (silent G) (odict.values cp) →
          ∃ w', _dispatch_first_found_default_or_lookup G (dispatch G fuel)
                  self w1 rem = Raised HTTPNotFound w'
                ∧ controller_path (state w') = [] ∧ calm w w') as Hsilent.
  { intros Hs.
    destruct (fallback_not_found G (dispatch G fuel) self w1 rem)
      as (w' & Hr & Hempty & Hcalm); [by rewrite Hcp1|].
    exists w'. split; [done|]. split; [done|]. by eapply calm_trans. }
  split; [exact Hsilent|]. split; [|split; [exact Hdefault|]].
  - intros Hnolookup.
    assert (¬ Forall (silent G) (odict.values cp) →
            ∃ w' m, _dispatch_first_found_default_or_lookup G (dispatch G fuel)
                      self w1 rem = Returned w'
                    ∧ method (state w') = Some m) as Hloud.
    { intros Hl.
      apply topmost_loud in Hl as (base & k & d & above & Hcp & Hs & Hd).
      assert (_is_exposed G d "lookup" = false) as Hdl.
      { rewrite Hcp in Hnolookup. unfold odict.values in Hnolookup.
        rewrite fmap_app in Hnolookup.
        apply Forall_app in Hnolookup as [_ Hnolookup].
        by apply Forall_cons in Hnolookup as [? _]. }
      destruct (_is_exposed G d "default") eqn:Ed;
        [|by destruct Hd].
      apply is_exposed_iff in Ed as (m & Hm & Hmeth).
      destruct (Hdefault base k d above m Hcp Hs Hm Hmeth) as (w' & Hr & Hmm & _).
      by exists w', m. }
    split; [|exact Hloud]. split.
    + intros (w' & Hr).
      destruct (decide (Forall (silent G) (odict.values cp))) as [|Hl]; [done|].
      destruct (Hloud Hl) as (w2 & m & Hr2 & _). congruence.
    + intros Hs. destruct (Hsilent Hs) as (w' & Hr & _). by exists w'.
  - intros base k d above m X r Hcp Hs Hd Hm Hmeth Hlk HiX. split.
    + intros HpX. rewrite <- Hup1 in Hlk |- *.
      destruct (fallback_restarts G (dispatch G fuel) self w1 rem base k d above
                  m X r) as (self' & w' & Hr & Hself & Hcp' & Hu' & Hev & Hcalm);
        [by rewrite Hcp1|done..|].
      exists self', w'. split; [done|]. split; [done|]. split; [done|].
      split; [by rewrite Hu', Hst|]. split; [done|]. by eapply calm_trans.
    + intros hook HdX Hh Hr. rewrite <- Hup1 in Hlk.
      destruct (fallback_restart_denied G (dispatch G fuel) self w1 rem base k d
                  above m X r hook) as (w' & Hres & Hcalm);
        [by rewrite Hcp1|done..|].
      exists w'. split; [done|]. by eapply calm_trans.
Qed.

Lemma fallback_outcome_by_stack_witness :
  (∃ w', dispatch chain_graph 1 0 (start 0 ["zzz"] ∅) ["zzz"]
         = Raised HTTPNotFound w'
         ∧ controller_path (state w') = [] ∧ calm (start 0 ["zzz"] ∅) w')
  ∧ (∃ w', dispatch chain_graph 1 3 chain_world ["extra"] = Returned w'
           ∧ method (state w') = Some 4
           ∧ remainder (state w') = Some ["c"; "extra"])
  ∧ (∃ self' w',
       dispatch restart_graph 3 0 (start 0 ["x"] ∅) ["x"]
       = dispatch restart_graph 2 self' w' ["go"]
       ∧ self' = 1
       ∧ controller_path (state w') = [("/", 0); ("lookup", 1)]
       ∧ url_path (state w') = ["x"]
       ∧ EvLookup 0 ["x"] ∈ trace w'
       ∧ calm (start 0 ["x"] ∅) w').
Proof.
  split; [|split].
  - apply (proj1 (fallback_outcome_by_stack chain_graph 0 0
                    (start 0 ["zzz"] ∅) 0 ["zzz"]
                    eq_refl ltac:(by intros hook) eq_refl)).
    by repeat constructor.
  - apply (proj1 (proj2 (proj2 (fallback_outcome_by_stack chain_graph 0 3
                                  chain_world 3 ["extra"]
                                  eq_refl ltac:(by intros hook) eq_refl)))
             [("/", 0); ("a", 1)] "b" 2 [("c", 3)] 4).
    + reflexivity.
    + by repeat constructor.
    + reflexivity.
    + reflexivity.
  - apply (proj1 (proj2 (proj2 (proj2 (fallback_outcome_by_stack restart_graph 2 0
                                         (start 0 ["x"] ∅) 0 ["x"]
                                         eq_refl ltac:(by intros hook) eq_refl)))
                    [] "/" 0 [] 5 1 ["go"]
                    eq_refl ltac:(constructor) eq_refl eq_refl eq_refl eq_refl
                    ltac:(by repeat split))).
    by intros hook.
Defined.

(** On [loop_graph] the restart after the lookup of the root comes back
    to that lookup without end. *)
Lemma loop_graph_never_ends fuel : ∀ self w,
  controller_path (state w) = [("/", 0); ("lookup", 1)] →
  dispatch loop_graph fuel self w [] = OutOfFuel.
Proof.
  induction fuel as [|fuel IH]; intros self w Hcp; [done|].
  rewrite dispatch_S.
  destruct (dispatch_no_match loop_graph (dispatch loop_graph fuel) self w 1 [])
    as (w1 & Hst & _ & ->);
    [by unfold controller; rewrite Hcp|by intros hook|done|].
  destruct (fallback_restarts loop_graph (dispatch loop_graph fuel) self w1 []
              [] "/" 0 [("lookup", 1)] 5 1 [])
    as (self' & w' & -> & _ & Hcp' & _);
    [by rewrite Hst|by repeat constructor|done|done|done|done
    |by repeat split|by intros hook|].
  by apply IH.
Qed.

(** C2 as stated fails where a [lookup] is on the stack. On [loop_graph]
    no controller has an attribute [zzz] and the root, the only
    controller on the stack, exposes [lookup]; yet the dispatch of [/zzz]
    neither resolves a handler nor raises, at whatever depth: the
    controller that the lookup returns has nothing, and the search that
    follows comes back to the same lookup. On [collide_graph] the
    dispatch of [/lookup/zzz] enters the fallback search with a
    controller on the stack that exposes [lookup], and ends with
    [HTTPNotFound]: the controller that the lookup returns takes the
    place of the controller of the lookup on the stack. *)
Lemma lookup_on_stack_neither_resolves_nor_ends :
  (_is_exposed loop_graph 0 "lookup" = true
   ∧ (∀ c, getattr loop_graph c "zzz" = None)
   ∧ ∀ fuel, dispatch loop_graph fuel 0 (start 0 ["zzz"] ∅) ["zzz"] = OutOfFuel)
  ∧ (_is_exposed collide_graph 1 "lookup" = true
     ∧ ∃ w, result (_get_dispatchable collide_graph json_only 6 0
                      ["lookup"; "zzz"] ∅) = Raised HTTPNotFound w
            ∧ EvAddController "lookup" 1 ∈ trace w
            ∧ EvLookup 1 ["zzz"] ∈ trace w).
Proof.
  split; [split; [reflexivity|split]|split; [reflexivity|]].
  - intros c. do 6 (destruct c as [|c]; [reflexivity|]). reflexivity.
  - intros [|fuel]; [done|]. rewrite dispatch_S.
    destruct (dispatch_no_match loop_graph (dispatch loop_graph fuel) 0
                (start 0 ["zzz"] ∅) 0 ["zzz"])
      as (w1 & Hst & _ & ->); [done|by intros hook|done|].
    destruct (fallback_restarts loop_graph (dispatch loop_graph fuel) 0 w1
                ["zzz"] [] "/" 0 [] 5 1 [])
      as (self' & w' & -> & _ & Hcp' & _);
      [by rewrite Hst|constructor|done|done|done|by rewrite Hst
      |by repeat split|by intros hook|].
    by apply loop_graph_never_ends.
  - eexists. split; [vm_compute; reflexivity|].
    split; apply list_elem_of_In; compute; tauto.
Qed.

(** ** Restarting at the result of a lookup *)

Lemma no_pop_before w w' :
  resolved_once w (Returned w') → no_pop w' → no_pop w.
Proof.
  intros (evs & m & r & Ht & _) Hn. unfold no_pop in *.
  rewrite Ht in Hn. by apply Forall_app in Hn as [? _].
Qed.

Lemma no_pop_log_pop c w : ¬ no_pop (log (EvPop c) w).
Proof.
  unfold no_pop, log. simpl. intros H.
  apply Forall_app in H as [_ H]. by inversion H.
Qed.

Lemma check_security_flag G o w1 w2 :
  (check_security G o w1).1 = (check_security G o w2).1.
Proof. unfold check_security. by destruct (getattr G o "_check_security"). Qed.

Lemma controller_nonempty s c :
  controller s = Some c → ∃ n, odict.len (controller_path s) = S n.
Proof.
  unfold controller, odict.getitem_last, odict.len.
  destruct (controller_path s) as [|x l]; [done|]. simpl. eauto.
Qed.

Section LookupRestart.

Variable G : graph.
Variable rec : obj → world → list string → outcome.
Hypothesis rec_once : ∀ self w rem, resolved_once w (rec self w rem).
(** Two calls at the same current controller: when the first resolves
    without a pop, the second resolves alike. *)
Hypothesis rec_sim : ∀ s1 s2 w1 w2 rem w1',
  controller (state w1) = controller (state w2) →
  rec s1 w1 rem = Returned w1' → no_pop w1' →
  ∃ w2', rec s2 w2 rem = Returned w2' ∧ agree w1' w2'.

Lemma dispatch_controller_sim s1 s2 k1 k2 c w1 w2 rem w1' :
  _dispatch_controller G rec s1 k1 c w1 rem = Returned w1' → no_pop w1' →
  ∃ w2', _dispatch_controller G rec s2 k2 c w2 rem = Returned w2'
         ∧ agree w1' w2'.
Proof.
  unfold _dispatch_controller. destruct (hasattr G c "_dispatch").
  - set (c1 := if isclass (G c) then instantiate (G c) else c).
    set (v1 := if isclass (G c) then log (EvInstantiate c) w1 else w1).
    set (v2 := if isclass (G c) then log (EvInstantiate c) w2 else w2).
    replace (if isclass (G c) then (instantiate (G c), log (EvInstantiate c) w1)
             else (c, w1)) with (c1, v1) by (subst c1 v1; by destruct (isclass _)).
    replace (if isclass (G c) then (instantiate (G c), log (EvInstantiate c) w2)
             else (c, w2)) with (c1, v2) by (subst c1 v2; by destruct (isclass _)).
    pose proof (check_security_flag G (default c1 (getattr G c1 "im_self")) v1 v2)
      as Hflag.
    destruct (check_security _ _ v1) as [b1 u1], (check_security _ _ v2) as [b2 u2].
    simpl in Hflag. subst b2. destruct b1; [done|].
    apply rec_sim.
    etrans; [apply (controller_add k1 c1 (state u1))|].
    symmetry. apply (controller_add k2 c1 (state u2)).
  - apply rec_sim.
    etrans; [apply (controller_add k1 c (state w1))|].
    symmetry. apply (controller_add k2 c (state w2)).
Qed.

Lemma search_up_sim s1 s2 o1 o2 b1 b2 n1 n2 w1 w2 rem w1' :
  controller (state w1) = controller (state w2) →
  search_up G rec s1 o1 b1 (S n1) w1 rem = Returned w1' → no_pop w1' →
  ∃ w2', search_up G rec s2 o2 b2 (S n2) w2 rem = Returned w2'
         ∧ agree w1' w2'.
Proof.
  intros Hc. cbn [search_up]. rewrite <- Hc.
  destruct (controller (state w1)) as [c|]; [|done].
  destruct (_is_exposed G c "default").
  { destruct (getattr G c "default") as [m|]; [|done].
    intros [= <-] _. by eexists. }
  destruct (_is_exposed G c "lookup").
  { destruct (getattr G c "lookup") as [m|]; [|done].
    destruct (call_lookup (G m) rem) as [c' rem'].
    apply dispatch_controller_sim. }
  intros Hres Hn. exfalso.
  set (v := log (EvPop c) _) in Hres.
  assert (∀ u rem0, calm v u →
            search_up G rec s1 o1 b1 n1 u rem0 = Returned w1' → False) as Hno.
  { intros u rem0 [(evs & Ht & _) _] Hu.
    pose proof (search_up_once G rec rec_once s1 o1 b1 n1 u rem0) as Ho.
    rewrite Hu in Ho. apply no_pop_before in Ho; [|done].
    unfold no_pop in Ho. rewrite Ht in Ho. apply Forall_app in Ho as [Ho _].
    by apply (no_pop_log_pop c) in Ho. }
  destruct (last (url_path (state v))).
  - eapply Hno; [|exact Hres]. by apply calm_upd.
  - eapply Hno; [|exact Hres]. apply calm_refl.
Qed.

Lemma fallback_sim s1 s2 w1 w2 rem w1' :
  controller (state w1) = controller (state w2) →
  _dispatch_first_found_default_or_lookup G rec s1 w1 rem = Returned w1' →
  no_pop w1' →
  ∃ w2', _dispatch_first_found_default_or_lookup G rec s2 w2 rem = Returned w2'
         ∧ agree w1' w2'.
Proof.
  intros Hc. unfold _dispatch_first_found_default_or_lookup.
  set (v1 := if bool_decide (0 < length rem) then _ else w1).
  set (v2 := if bool_decide (0 < length rem) then _ else w2).
  assert (controller (state v1) = controller (state w1)) as H1
    by (subst v1; by case_bool_decide).
  assert (controller (state v2) = controller (state w2)) as H2
    by (subst v2; by case_bool_decide).
  destruct (controller (state w1)) as [c|] eqn:E1.
  - destruct (controller_nonempty _ _ H1) as [n1 ->].
    symmetry in Hc. rewrite <- H2 in Hc.
    destruct (controller_nonempty _ _ Hc) as [n2 ->].
    apply search_up_sim. congruence.
  - unfold controller, odict.getitem_last in H1.
    destruct (controller_path (state v1)) as [|x l] eqn:E; [done|].
    exfalso. assert (is_Some (last (x :: l))) as [y Hy].
    { apply last_is_Some. done. }
    by rewrite Hy in H1.
Qed.

Lemma dispatch_body_sim s1 s2 w1 w2 rem w1' :
  controller (state w1) = controller (state w2) →
  _dispatch G rec s1 w1 rem = Returned w1' → no_pop w1' →
  ∃ w2', _dispatch G rec s2 w2 rem = Returned w2' ∧ agree w1' w2'.
Proof.
  intros Hc. unfold _dispatch. rewrite <- Hc.
  destruct (controller (state w1)) as [c|] eqn:E1; [|done].
  pose proof (check_security_flag G c w1 w2) as Hflag.
  assert (controller (state (check_security G c w1).2)
          = controller (state (check_security G c w2).2)) as Hc'.
  { unfold check_security.
    destruct (getattr G c "_check_security"); simpl; congruence. }
  destruct (check_security G c w1) as [b1 u1], (check_security G c w2) as [b2 u2].
  simpl in Hflag, Hc'. subst b2. destruct b1; [done|].
  destruct rem as [|seg rest].
  - destruct (getattr G c "index") as [m|].
    + intros [= <-] _. by eexists.
    + by apply fallback_sim.
  - destruct (_is_exposed G c seg).
    + destruct (getattr G c seg) as [m|]; [|done].
      intros [= <-] _. by eexists.
    + destruct (getattr G c seg) as [sub|].
      * apply dispatch_controller_sim.
      * by apply fallback_sim.
Qed.

End LookupRestart.

Lemma dispatch_sim G fuel : ∀ s1 s2 w1 w2 rem w1',
  controller (state w1) = controller (state w2) →
  dispatch G fuel s1 w1 rem = Returned w1' → no_pop w1' →
  ∃ w2', dispatch G fuel s2 w2 rem = Returned w2' ∧ agree w1' w2'.
Proof.
  induction fuel as [|fuel IH]; intros s1 s2 w1 w2 rem w1' Hc; [done|].
  rewrite !dispatch_S.
  apply (dispatch_body_sim G (dispatch G fuel) (dispatch_once G fuel) IH); done.
Qed.




(** ** Extension stripping *)

Lemma rfind_absent c s : contains c s = false → rfind c s = (-1)%Z.
Proof.
  induction s as [|a s IH]; simpl; [done|].
  intros [Ha Hs]%orb_false_iff. by rewrite (IH Hs), Ha.
Qed.

(** [rfind] points at the last occurrence: what follows it has none. *)
Lemma rfind_last c s :
  contains c s = true →
  ∃ n e, rfind c s = Z.of_nat n ∧ n < String.length s
         ∧ s = str_take n s +:+ String c e
         ∧ str_drop n s = String c e
         ∧ contains c e = false.
Proof.
  induction s as [|a s IH]; simpl; [done|].
  destruct (contains c s) eqn:Hs.
  - intros _. destruct (IH eq_refl) as (n & e & Hr & Hn & Hsplit & Hd & He).
    exists (S n), e. rewrite Hr.
    assert ((0 <=? Z.of_nat n)%Z = true) as -> by lia.
    simpl. split; [lia|]. split; [lia|]. split; [|done].
    change (String a s = String a (str_take n s +:+ String c e)). by f_equal.
  - rewrite orb_false_r. intros Ha. rewrite (rfind_absent c s Hs). simpl.
    rewrite Ha. apply Ascii.eqb_eq in Ha as ->.
    exists 0, s. split; [done|]. split; [simpl; lia|]. by repeat split.
Qed.

Lemma slice_bound_nat (n len : nat) :
  (n ≤ len)%nat → slice_bound (Z.of_nat n) len = n.
Proof.
  intros Hn. unfold slice_bound.
  assert ((Z.of_nat n <? 0)%Z = false) as -> by lia. lia.
Qed.

Lemma strip_extension_recognised guess_type path seg mime :
  contains "." seg = true → guess_type seg = Some mime →
  ∃ stem e, seg = stem +:+ String "." e ∧ contains "." e = false
            ∧ strip_extension guess_type (path ++ [seg])
              = (path ++ [stem], Some mime, Some (String "." e)).
Proof.
  intros Hdot Hg. unfold strip_extension. rewrite last_snoc, Hdot, Hg.
  destruct (rfind_last "." seg Hdot) as (n & e & Hr & Hn & Hsplit & Hd & He).
  exists (str_take n seg), e. split; [done|]. split; [done|].
  unfold str_from, str_to. rewrite Hr, slice_bound_nat, Hd by lia.
  f_equal. f_equal. rewrite length_app. simpl.
  replace (length path + 1 - 1) with (length path + 0) by lia.
  by rewrite insert_app_r.
Qed.

Lemma strip_extension_unrecognised guess_type path seg :
  contains "." seg = false ∨ guess_type seg = None →
  strip_extension guess_type (path ++ [seg]) = (path ++ [seg], None, None).
Proof.
  intros H. unfold strip_extension. rewrite last_snoc.
  destruct (contains "." seg); [|done].
  destruct H as [H|H]; [done|by rewrite H].
Qed.

(** C8: [_get_dispatchable] cuts a recognised extension off the last
    segment once, before the dispatch is started: the last segment is
    split at its last dot, the part before it replaces the segment in the
    path that the dispatch receives as URL path and as remainder, and the
    type and the extension (from the dot on, with no further dot in it)
    are recorded apart. The dispatch itself never consults
    [guess_type]. When the last segment has no dot or no recognised type,
    and when the path is empty, the path is dispatched as it is and
    nothing is recorded. *)
Theorem extension_stripped_before_dispatch
    G guess_type fuel self path seg request_params :
  let r := _get_dispatchable G guess_type fuel self (path ++ [seg]) request_params in
  (∀ mime,
     contains "." seg = true → guess_type seg = Some mime →
     ∃ stem e,
       seg = stem +:+ String "." e ∧ contains "." e = false
       ∧ dispatched_path r = path ++ [stem]
       ∧ response_type r = Some mime
       ∧ response_ext r = Some (String "." e)
       ∧ result r
         = update_routing_args request_params
             (dispatch G fuel self
                (start self (path ++ [stem]) request_params) (path ++ [stem])))
  ∧ (contains "." seg = false ∨ guess_type seg = None →
     dispatched_path r = path ++ [seg]
     ∧ response_type r = None ∧ response_ext r = None
     ∧ result r
       = update_routing_args request_params
           (dispatch G fuel self
              (start self (path ++ [seg]) request_params) (path ++ [seg])))
  ∧ (let r0 := _get_dispatchable G guess_type fuel self [] request_params in
     dispatched_path r0 = [] ∧ response_type r0 = None ∧ response_ext r0 = None).
Proof.
  intros r. split; [|split; [|done]].
  - intros mime Hdot Hg.
    destruct (strip_extension_recognised guess_type path seg mime Hdot Hg)
      as (stem & e & Hsplit & He & Hstrip).
    exists stem, e. subst r. unfold _get_dispatchable. by rewrite Hstrip.
  - intros H. subst r. unfold _get_dispatchable.
    by rewrite (strip_extension_unrecognised guess_type path seg H).
Qed.

Lemma extension_stripped_before_dispatch_witness :
  (∃ stem e,
     "report.json" = stem +:+ String "." e ∧ contains "." e = false
     ∧ dispatched_path (_get_dispatchable chain_graph json_only 3 0
                          ([] ++ ["report.json"]) ∅) = [] ++ [stem]
     ∧ response_type (_get_dispatchable chain_graph json_only 3 0
                        ([] ++ ["report.json"]) ∅) = Some "application/json"
     ∧ response_ext (_get_dispatchable chain_graph json_only 3 0
                       ([] ++ ["report.json"]) ∅) = Some (String "." e)
     ∧ result (_get_dispatchable chain_graph json_only 3 0
                 ([] ++ ["report.json"]) ∅)
       = update_routing_args ∅
           (dispatch chain_graph 3 0 (start 0 ([] ++ [stem]) ∅) ([] ++ [stem])))
  ∧ dispatched_path (_get_dispatchable chain_graph json_only 3 0
                       (["a"] ++ ["b"]) ∅) = ["a"] ++ ["b"].
Proof.
  split.
  - apply (proj1 (extension_stripped_before_dispatch chain_graph json_only 3 0
                    [] "report.json" ∅) "application/json"); reflexivity.
  - apply (proj1 (proj2 (extension_stripped_before_dispatch chain_graph
                           json_only 3 0 ["a"] "b" ∅))).
    left. reflexivity.
Defined.

Example report_json_stripped :
  strip_extension json_only ["report.json"]
  = (["report"], Some "application/json", Some ".json").
Proof. reflexivity. Qed.


(** * Further properties of the code *)

(** ** Argument binding *)

Lemma get_argspec_cache getargspec f σ :
  cached_argspecs (_get_argspec getargspec f σ).2
  = Some (<[f := (_get_argspec getargspec f σ).1]> (default ∅ (cached_argspecs σ))).
Proof.
  unfold _get_argspec. destruct (default ∅ (cached_argspecs σ) !! f) eqn:E; simpl.
  - by rewrite insert_id.
  - done.
Qed.

(** X1: [_get_argspec] memoises: a second call for the same function
    returns what the first returned and leaves the store as the first
    left it, the signatures cached for other functions are kept, and a
    signature found in the cache is returned without consulting
    [getargspec]. *)
Theorem get_argspec_memoises getargspec f σ :
  let r := _get_argspec getargspec f σ in
  _get_argspec getargspec f r.2 = r
  ∧ (∀ other_getargspec, _get_argspec other_getargspec f r.2 = r)
  ∧ (∀ g, g ≠ f →
       default ∅ (cached_argspecs r.2) !! g = default ∅ (cached_argspecs σ) !! g)
  ∧ dicts r.2 = dicts σ ∧ lists r.2 = lists σ.
Proof.
  intros r.
  assert (∀ h, _get_argspec h f r.2 = r) as Hagain.
  { intros h. subst r. unfold _get_argspec.
    destruct (default ∅ (cached_argspecs σ) !! f) eqn:E; simpl.
    - by rewrite E.
    - by rewrite lookup_insert_eq. }
  split; [apply Hagain|]. split; [apply Hagain|]. split.
  - intros g Hg. subst r. rewrite get_argspec_cache. simpl.
    by rewrite lookup_insert_ne.
  - apply get_argspec_dicts.
Qed.

Lemma fill_params_other argvars : ∀ i rem d key,
  key ∉ take (length rem - i) argvars →
  fill_params i argvars rem d !! key = d !! key.
Proof.
  induction argvars as [|var vars IH]; intros i rem d key Hk; simpl; [done|].
  destruct (rem !! i) as [v|] eqn:E; [|done].
  apply lookup_lt_Some in E.
  replace (length rem - i) with (S (length rem - S i)) in Hk by lia.
  simpl in Hk. apply not_elem_of_cons in Hk as [Hne Hk].
  rewrite IH by done. by rewrite lookup_insert_ne.
Qed.

Lemma fill_params_bound argvars : ∀ i rem d j var v,
  NoDup argvars →
  argvars !! j = Some var → rem !! (i + j) = Some v →
  fill_params i argvars rem d !! var = Some v.
Proof.
  induction argvars as [|var0 vars IH]; intros i rem d j var v Hnd Hj Hv;
    [done|]. simpl.
  apply NoDup_cons in Hnd as [Hnotin Hnd].
  destruct (rem !! i) as [v0|] eqn:E.
  - destruct j as [|j]; simpl in Hj.
    + injection Hj as <-. rewrite Nat.add_0_r, E in Hv. injection Hv as <-.
      rewrite fill_params_other; [by rewrite lookup_insert_eq|].
      intros Hin. apply Hnotin.
      apply elem_of_take in Hin as (k & Hk & _). by eapply list_elem_of_lookup_2.
    + eapply (IH (S i)); [done|exact Hj|].
      by replace (S i + j) with (i + S j) by lia.
  - apply lookup_ge_None in E. apply lookup_lt_Some in Hv. lia.
Qed.

(** X2: [_get_params_with_argspec] returns a new dictionary in which the
    declared parameters after [self] are bound, in order, to the entries
    of the remainder, as many as there are of both: a positional value
    replaces a named one of the same name, every other key is as in the
    caller's dictionary, entries of the remainder beyond the declared
    parameters are ignored, and neither the caller's dictionary nor the
    remainder list is changed. Parameter names are distinct, as Python
    demands of a signature. *)
Theorem get_params_binds_positionally getargspec f p r σ d rem :
  dicts σ !! p = Some d →
  lists σ !! r = Some rem →
  let argvars := slice_from 1 (spec_args (_get_argspec getargspec f σ).1) in
  NoDup argvars →
  ∃ σ' d',
    _get_params_with_argspec getargspec f p r σ = Bound (length (dicts σ)) r σ'
    ∧ dicts σ' !! length (dicts σ) = Some d'
    ∧ dicts σ' !! p = Some d
    ∧ lists σ' = lists σ
    ∧ (∀ j var v, argvars !! j = Some var → rem !! j = Some v →
                  d' !! var = Some v)
    ∧ (∀ key, key ∉ take (length rem) argvars → d' !! key = d !! key).
Proof.
  intros Hd Hr argvars Hnd. unfold _get_params_with_argspec, dict_copy.
  rewrite Hd. simpl.
  set (σ1 := set_dicts (dicts σ ++ [d]) σ).
  assert ((_get_argspec getargspec f σ1).1 = (_get_argspec getargspec f σ).1)
    as Hsame by (unfold _get_argspec; simpl; by destruct (_ !! f)).
  pose proof (get_argspec_dicts getargspec f σ1) as [Hds Hls].
  destruct (_get_argspec getargspec f σ1) as [a σ2]. simpl in Hsame, Hds, Hls.
  subst a. fold argvars. rewrite Hls. simpl. rewrite Hr.
  assert (p < length (dicts σ)) as Hp by by eapply lookup_lt_Some.
  assert (dicts σ2 !! length (dicts σ) = Some d) as Hnew.
  { rewrite Hds. simpl. rewrite lookup_app_r by lia.
    by rewrite Nat.sub_diag. }
  case_bool_decide as Hne.
  - rewrite Hnew. simpl. eexists _, _. split; [done|]. simpl.
    rewrite Hds. simpl.
    split; [apply list_lookup_insert_eq; rewrite length_app; simpl; lia|].
    split; [by rewrite write_copy_frame|]. split; [done|]. split.
    + intros j var v Hj Hv. by eapply (fill_params_bound argvars 0).
    + intros key Hk. apply fill_params_other. by rewrite Nat.sub_0_r.
  - assert (argvars = []) as Hnil by exact Hne.
    exists σ2, d. split; [done|].
    split; [done|]. rewrite Hds. simpl.
    split; [by rewrite lookup_app_l|]. split; [done|].
    rewrite Hnil. split; [by intros [|?]|done].
Qed.

Lemma get_params_binds_positionally_witness :
  ∃ σ' d',
    _get_params_with_argspec name_age 0 0 0
      (mkStore [ {[ "age" := VStr "7"; "page" := VStr "2" ]} ]
         [ [VStr "alice"; VStr "30"; VStr "x"] ] None)
    = Bound 1 0 σ'
    ∧ dicts σ' !! 1 = Some d'
    ∧ d' !! "name" = Some (VStr "alice")
    ∧ d' !! "age" = Some (VStr "30")
    ∧ d' !! "page" = Some (VStr "2").
Proof.
  destruct (get_params_binds_positionally name_age 0 0 0
              (mkStore [ {[ "age" := VStr "7"; "page" := VStr "2" ]} ]
                 [ [VStr "alice"; VStr "30"; VStr "x"] ] None)
              {[ "age" := VStr "7"; "page" := VStr "2" ]}
              [VStr "alice"; VStr "30"; VStr "x"] eq_refl eq_refl)
    as (σ' & d' & Hb & Hd' & _ & _ & Hbound & Hother).
  - apply (bool_decide_unpack _). by vm_compute.
  - exists σ', d'. split; [exact Hb|]. split; [exact Hd'|].
    split; [apply (Hbound 0); reflexivity|].
    split; [apply (Hbound 1); reflexivity|].
    rewrite Hother; [reflexivity|].
    apply (bool_decide_unpack _). by vm_compute.
Defined.

Lemma move_required_ok (vars : list string) :
  ∀ (i : nat) (d : gmap string pyval) (rem : list pyval),
  NoDup vars →
  (∀ var, var ∈ vars → is_Some (d !! var)) →
  (i + length vars ≤ length rem)%nat →
  ∃ d' rem',
    move_required i vars d rem = (None, d', rem')
    ∧ length rem' = length rem
    ∧ (∀ key, key ∈ vars → d' !! key = None)
    ∧ (∀ key, key ∉ vars → d' !! key = d !! key)
    ∧ (∀ j var, vars !! j = Some var → rem' !! (i + j) = d !! var)
    ∧ (∀ k, (k < i ∨ i + length vars ≤ k)%nat → rem' !! k = rem !! k).
Proof.
  induction vars as [|var0 vars IH]; intros i d rem Hnd Hin Hlen.
  { exists d, rem. simpl. split; [done|]. split; [done|].
    split; [by intros ? ?%elem_of_nil|]. split; [done|]. split; [done|done]. }
  simpl in Hlen. apply NoDup_cons in Hnd as [Hnotin Hnd]. simpl.
  destruct (Hin var0) as [v0 Hv0]; [by left|]. rewrite Hv0.
  rewrite bool_decide_true by lia.
  destruct (IH (S i) (delete var0 d) (<[i:=v0]> rem) Hnd)
    as (d' & rem' & -> & Hl & Hgone & Hkeep & Hslots & Hrest).
  { intros var Hvar. rewrite lookup_delete_ne by (by intros ->).
    apply Hin. by right. }
  { rewrite length_insert. lia. }
  exists d', rem'. split; [done|]. rewrite Hl, length_insert. split; [done|].
  split.
  { intros key [->|Hk]%elem_of_cons; [|by apply Hgone].
    rewrite Hkeep by done. apply lookup_delete_eq. }
  split.
  { intros key [Hne Hk]%not_elem_of_cons. rewrite Hkeep by done.
    by apply lookup_delete_ne. }
  split.
  - intros [|j] var Hj; simpl in Hj.
    + injection Hj as <-. rewrite Nat.add_0_r, Hrest by (left; lia).
      rewrite Hv0. apply list_lookup_insert_eq. lia.
    + replace (i + S j) with (S i + j) by lia. rewrite (Hslots j var Hj).
      apply lookup_delete_ne. intros ->. apply Hnotin.
      by eapply list_elem_of_lookup_2.
  - intros k Hk. rewrite Hrest by (simpl in Hk; lia).
    apply list_lookup_insert_ne. simpl in Hk. lia.
Qed.

Lemma move_required_app pre rest : ∀ i d rem d1 rem1,
  move_required i pre d rem = (None, d1, rem1) →
  move_required i (pre ++ rest) d rem
  = move_required (i + length pre) rest d1 rem1.
Proof.
  induction pre as [|var pre IH]; intros i d rem d1 rem1 H; simpl in *.
  - injection H as <- <-. by rewrite Nat.add_0_r.
  - destruct (d !! var) as [v|]; [|done].
    case_bool_decide; [|done].
    rewrite (IH _ _ _ _ _ H). f_equal. lia.
Qed.

Section RemoveArgspec.

Variable getargspec : func → ArgSpec.
Variables (f : func) (p r : nat) (σ : store).
Variables (d : gmap string pyval) (rem : list pyval).
Hypothesis Hd : dicts σ !! p = Some d.
Hypothesis Hr : lists σ !! r = Some rem.

Let argspec := (_get_argspec getargspec f σ).1.
Let argvars := slice_from 1 (spec_args argspec).

(** The function up to its two loops, for a signature without
    defaults. *)
Lemma remove_argspec_no_defaults :
  default [] (spec_defaults argspec) = [] →
  argvars ≠ [] → rem ≠ [] →
  ∃ σ2, dicts σ2 = dicts σ ++ [d] ∧ lists σ2 = lists σ
    ∧ _remove_argspec_params_from_params getargspec f p r σ
      = let '(raised, d', rem') := move_required 0 argvars d rem in
        let σ3 := set_lists (<[r := rem']> (lists σ2)) σ2 in
        match raised with
        | Some e => BindRaised e (set_dicts (<[length (dicts σ) := d']> (dicts σ3)) σ3)
        | None => Bound (length (dicts σ)) r
                    (set_dicts (<[length (dicts σ) := d']> (dicts σ3)) σ3)
        end.
Proof.
  intros Hnodef Hvars Hrem. unfold _remove_argspec_params_from_params.
  pose proof (get_argspec_dicts getargspec f σ) as [Hds Hls].
  subst argvars argspec.
  destruct (_get_argspec getargspec f σ) as [a σ1]. simpl in *.
  rewrite Hls, Hr. rewrite !bool_decide_false by done. simpl.
  rewrite Hnodef. simpl. unfold dict_copy. rewrite Hds, Hd. simpl.
  exists (set_dicts (dicts σ ++ [d]) σ1). split; [done|]. split; [done|].
  rewrite lookup_app_r, Nat.sub_diag by lia. simpl.
  by destruct (move_required 0 _ d rem) as [[[e|] d'] rem'].
Qed.

End RemoveArgspec.

(** X3: when the handler declares no parameter after [self], or the
    remainder is empty, [_remove_argspec_params_from_params] returns the
    very references it was given: no copy is made and no dictionary or
    list of the store changes. *)
Theorem remove_argspec_nothing_to_do getargspec f p r σ rem :
  lists σ !! r = Some rem →
  slice_from 1 (spec_args (_get_argspec getargspec f σ).1) = [] ∨ rem = [] →
  ∃ σ', _remove_argspec_params_from_params getargspec f p r σ = Bound p r σ'
        ∧ dicts σ' = dicts σ ∧ lists σ' = lists σ.
Proof.
  intros Hr Hnone. unfold _remove_argspec_params_from_params.
  pose proof (get_argspec_dicts getargspec f σ) as [Hds Hls].
  destruct (_get_argspec getargspec f σ) as [a σ1]. cbn [fst snd] in *.
  rewrite Hls, Hr.
  assert (bool_decide (slice_from 1 (spec_args a) = []) || bool_decide (rem = [])
          = true) as ->.
  { destruct Hnone as [H|H]; rewrite (bool_decide_true _ H);
      [done | apply orb_true_r]. }
  by exists σ1.
Qed.

Lemma remove_argspec_nothing_to_do_witness :
  ∃ σ', _remove_argspec_params_from_params name_age 0 0 0
          (mkStore [ {[ "name" := VStr "n" ]} ] [ [] ] None) = Bound 0 0 σ'
        ∧ dicts σ' = [ {[ "name" := VStr "n" ]} ] ∧ lists σ' = [ [] ].
Proof.
  apply (remove_argspec_nothing_to_do name_age 0 0 0
           (mkStore [ {[ "name" := VStr "n" ]} ] [ [] ] None) []).
  - reflexivity.
  - right. reflexivity.
Defined.

(** X4: for a signature without defaults whose parameters after [self]
    are all among the named parameters, and a remainder at least as long,
    [_remove_argspec_params_from_params] returns a new dictionary without
    those parameters and writes their values, in the order of the
    signature, over the first entries of the caller's remainder list; the
    later entries, the length of the list, and the caller's dictionary
    stay as they were. *)
Theorem remove_argspec_moves_named_to_positions getargspec f p r σ d rem :
  dicts σ !! p = Some d →
  lists σ !! r = Some rem →
  let argspec := (_get_argspec getargspec f σ).1 in
  let argvars := slice_from 1 (spec_args argspec) in
  default [] (spec_defaults argspec) = [] →
  argvars ≠ [] →
  NoDup argvars →
  (∀ var, var ∈ argvars → is_Some (d !! var)) →
  (length argvars ≤ length rem)%nat →
  ∃ σ' d' rem',
    _remove_argspec_params_from_params getargspec f p r σ
    = Bound (length (dicts σ)) r σ'
    ∧ dicts σ' !! length (dicts σ) = Some d'
    ∧ lists σ' !! r = Some rem'
    ∧ dicts σ' !! p = Some d
    ∧ length rem' = length rem
    ∧ (∀ key, key ∈ argvars → d' !! key = None)
    ∧ (∀ key, key ∉ argvars → d' !! key = d !! key)
    ∧ (∀ j var, argvars !! j = Some var → rem' !! j = d !! var)
    ∧ (∀ k, (length argvars ≤ k)%nat → rem' !! k = rem !! k).
Proof.
  intros Hd Hr argspec argvars Hnodef Hne Hnd Hall Hlen.
  assert (rem ≠ []) as Hrem.
  { intros ->. destruct argvars; [done|simpl in Hlen; lia]. }
  destruct (remove_argspec_no_defaults getargspec f p r σ d rem Hd Hr
              Hnodef Hne Hrem) as (σ2 & Hds & Hls & ->).
  destruct (move_required_ok argvars 0 d rem Hnd Hall)
    as (d' & rem' & Hmove & Hl & Hgone & Hkeep & Hslots & Hrest); [simpl; lia|].
  fold argspec argvars. rewrite Hmove. simpl.
  assert (p < length (dicts σ)) as Hp by by eapply lookup_lt_Some.
  eexists _, d', rem'. split; [done|]. simpl. rewrite Hds, Hls.
  split; [apply list_lookup_insert_eq; rewrite length_app; simpl; lia|].
  split; [apply list_lookup_insert_eq; by eapply lookup_lt_Some|].
  split; [by rewrite write_copy_frame|]. split; [done|].
  split; [done|]. split; [done|]. split.
  - intros j var Hj. by apply (Hslots j).
  - intros k Hk. apply Hrest. right. simpl. lia.
Qed.

Lemma remove_argspec_moves_named_to_positions_witness :
  ∃ σ' d' rem',
    _remove_argspec_params_from_params name_age 0 0 0
      (mkStore [ {[ "name" := VStr "n"; "age" := VStr "7"; "q" := VStr "1" ]} ]
         [ [VStr "a"; VStr "b"; VStr "c"] ] None)
    = Bound 1 0 σ'
    ∧ dicts σ' !! 1 = Some d' ∧ lists σ' !! 0 = Some rem'
    ∧ d' !! "name" = None ∧ d' !! "q" = Some (VStr "1")
    ∧ rem' !! 0 = Some (VStr "n") ∧ rem' !! 1 = Some (VStr "7")
    ∧ rem' !! 2 = Some (VStr "c").
Proof.
  destruct (remove_argspec_moves_named_to_positions name_age 0 0 0
              (mkStore [ {[ "name" := VStr "n"; "age" := VStr "7"; "q" := VStr "1" ]} ]
                 [ [VStr "a"; VStr "b"; VStr "c"] ] None)
              {[ "name" := VStr "n"; "age" := VStr "7"; "q" := VStr "1" ]}
              [VStr "a"; VStr "b"; VStr "c"] eq_refl eq_refl)
    as (σ' & d' & rem' & Hb & Hd' & Hrem' & _ & _ & Hgone & Hkeep & Hslots & Hrest).
  - reflexivity.
  - apply (bool_decide_unpack _). by vm_compute.
  - apply (bool_decide_unpack _). by vm_compute.
  - intros var Hvar. apply (bool_decide_unpack _).
    assert (var = "name" ∨ var = "age") as [-> | ->]; [|by vm_compute..].
    apply elem_of_cons in Hvar as [->|Hvar]; [by left|].
    apply elem_of_cons in Hvar as [->|Hvar]; [by right|].
    by apply elem_of_nil in Hvar.
  - vm_compute. lia.
  - exists σ', d', rem'. split; [exact Hb|]. split; [exact Hd'|].
    split; [exact Hrem'|].
    split; [apply Hgone; apply (bool_decide_unpack _); by vm_compute|].
    split; [rewrite Hkeep; [by vm_compute|];
            apply (bool_decide_unpack _); by vm_compute|].
    split; [by rewrite (Hslots 0 "name" eq_refl)|].
    split; [by rewrite (Hslots 1 "age" eq_refl)|].
    rewrite (Hrest 2); [reflexivity|]. vm_compute. lia.
Defined.

(** X5: for a signature without defaults and a non-empty remainder that
    has at least as many entries as there are declared parameters before
    the first one missing from the named parameters,
    [_remove_argspec_params_from_params] raises [KeyError] for that
    parameter. The caller's dictionary is untouched, but the entries of
    the caller's remainder list at the positions of the parameters before
    it have already been overwritten. (With an empty remainder the
    function returns at once, and with a shorter one it raises
    [IndexError] first.) *)
Theorem remove_argspec_missing_parameter getargspec f p r σ d rem pre v post :
  dicts σ !! p = Some d →
  lists σ !! r = Some rem →
  let argspec := (_get_argspec getargspec f σ).1 in
  default [] (spec_defaults argspec) = [] →
  slice_from 1 (spec_args argspec) = pre ++ v :: post →
  NoDup pre →
  (∀ var, var ∈ pre → is_Some (d !! var)) →
  d !! v = None →
  rem ≠ [] →
  (length pre ≤ length rem)%nat →
  ∃ σ' rem',
    _remove_argspec_params_from_params getargspec f p r σ
    = BindRaised (KeyError v) σ'
    ∧ dicts σ' !! p = Some d
    ∧ lists σ' !! r = Some rem'
    ∧ length rem' = length rem
    ∧ (∀ j var, pre !! j = Some var → rem' !! j = d !! var)
    ∧ (∀ k, (length pre ≤ k)%nat → rem' !! k = rem !! k).
Proof.
  intros Hd Hr argspec Hnodef Hvars Hnd Hall Hv Hrem Hlen.
  destruct (remove_argspec_no_defaults getargspec f p r σ d rem Hd Hr Hnodef)
    as (σ2 & Hds & Hls & ->); [fold argspec; rewrite Hvars; by destruct pre|done|].
  fold argspec. rewrite Hvars.
  destruct (move_required_ok pre 0 d rem Hnd Hall)
    as (d1 & rem1 & Hmove & Hl & Hgone & Hkeep & Hslots & Hrest); [simpl; lia|].
  rewrite (move_required_app pre (v :: post) 0 d rem d1 rem1 Hmove). simpl.
  assert (d1 !! v = None) as ->.
  { destruct (decide (v ∈ pre)); [by apply Hgone|]. by rewrite Hkeep. }
  simpl. assert (p < length (dicts σ)) as Hp by by eapply lookup_lt_Some.
  eexists _, rem1. split; [done|]. simpl. rewrite Hds, Hls.
  split; [by rewrite write_copy_frame|].
  split; [apply list_lookup_insert_eq; by eapply lookup_lt_Some|].
  split; [done|]. split.
  - intros j var Hj. by apply (Hslots j).
  - intros k Hk. apply Hrest. right. simpl. lia.
Qed.

Lemma remove_argspec_missing_parameter_witness :
  ∃ σ' rem',
    _remove_argspec_params_from_params name_age 0 0 0
      (mkStore [ {[ "name" := VStr "n" ]} ] [ [VStr "a"; VStr "b"] ] None)
    = BindRaised (KeyError "age") σ'
    ∧ dicts σ' !! 0 = Some {[ "name" := VStr "n" ]}
    ∧ lists σ' !! 0 = Some rem'
    ∧ rem' !! 0 = Some (VStr "n") ∧ rem' !! 1 = Some (VStr "b").
Proof.
  destruct (remove_argspec_missing_parameter name_age 0 0 0
              (mkStore [ {[ "name" := VStr "n" ]} ] [ [VStr "a"; VStr "b"] ] None)
              {[ "name" := VStr "n" ]} [VStr "a"; VStr "b"]
              ["name"] "age" [] eq_refl eq_refl)
    as (σ' & rem' & Hb & Hd' & Hrem' & _ & Hslots & Hrest).
  - reflexivity.
  - reflexivity.
  - apply (bool_decide_unpack _). by vm_compute.
  - intros var ->%list_elem_of_singleton. apply (bool_decide_unpack _).
    by vm_compute.
  - by vm_compute.
  - done.
  - simpl. lia.
  - exists σ', rem'. split; [exact Hb|]. split; [exact Hd'|].
    split; [exact Hrem'|].
    split; [by rewrite (Hslots 0 "name" eq_refl)|].
    rewrite (Hrest 1); [reflexivity|]. simpl. lia.
Defined.

(** X6: for a signature without defaults that declares more parameters
    than the remainder has entries, all of them named,
    [_remove_argspec_params_from_params] raises [IndexError], after it has
    overwritten every entry of the caller's remainder list with the value
    of the parameter at its position. *)
Theorem remove_argspec_short_remainder getargspec f p r σ d rem :
  dicts σ !! p = Some d →
  lists σ !! r = Some rem →
  let argspec := (_get_argspec getargspec f σ).1 in
  let argvars := slice_from 1 (spec_args argspec) in
  default [] (spec_defaults argspec) = [] →
  NoDup argvars →
  (∀ var, var ∈ argvars → is_Some (d !! var)) →
  rem ≠ [] →
  (length rem < length argvars)%nat →
  ∃ σ' rem',
    _remove_argspec_params_from_params getargspec f p r σ
    = BindRaised IndexError σ'
    ∧ dicts σ' !! p = Some d
    ∧ lists σ' !! r = Some rem'
    ∧ length rem' = length rem
    ∧ (∀ j var, (j < length rem)%nat → argvars !! j = Some var →
                rem' !! j = d !! var).
Proof.
  intros Hd Hr argspec argvars Hnodef Hnd Hall Hrem Hlen.
  destruct (remove_argspec_no_defaults getargspec f p r σ d rem Hd Hr Hnodef)
    as (σ2 & Hds & Hls & ->);
    [fold argspec argvars; intros E; rewrite E in Hlen; simpl in Hlen; lia|done|].
  fold argspec argvars.
  destruct (lookup_lt_is_Some_2 argvars (length rem) Hlen) as [v Hv].
  pose proof (take_drop_middle argvars (length rem) v Hv) as Hsplit.
  set (pre := take (length rem) argvars) in *.
  set (post := drop (S (length rem)) argvars) in *.
  assert (length pre = length rem) as Hpre
    by (subst pre; rewrite length_take; lia).
  rewrite <- Hsplit in Hnd. apply NoDup_app in Hnd as (Hndpre & Hdisj & _).
  destruct (move_required_ok pre 0 d rem Hndpre)
    as (d1 & rem1 & Hmove & Hl & Hgone & Hkeep & Hslots & Hrest).
  { intros var Hvar. apply Hall. rewrite <- Hsplit. apply elem_of_app. by left. }
  { simpl. lia. }
  rewrite <- Hsplit.
  rewrite (move_required_app pre (v :: post) 0 d rem d1 rem1 Hmove). simpl.
  assert (is_Some (d1 !! v)) as [x ->].
  { rewrite Hkeep.
    - apply Hall. by eapply list_elem_of_lookup_2.
    - intros Hin. apply (Hdisj v Hin). by left. }
  rewrite bool_decide_false by lia. simpl.
  assert (p < length (dicts σ)) as Hp by by eapply lookup_lt_Some.
  eexists _, rem1. split; [done|]. simpl. rewrite Hds, Hls.
  split; [by rewrite write_copy_frame|].
  split; [apply list_lookup_insert_eq; by eapply lookup_lt_Some|].
  split; [done|].
  intros j var Hj Hjv. apply (Hslots j).
  by rewrite lookup_app_l in Hjv by lia.
Qed.

Lemma remove_argspec_short_remainder_witness :
  ∃ σ' rem',
    _remove_argspec_params_from_params name_age 0 0 0
      (mkStore [ {[ "name" := VStr "n"; "age" := VStr "7" ]} ] [ [VStr "a"] ] None)
    = BindRaised IndexError σ'
    ∧ lists σ' !! 0 = Some rem'
    ∧ rem' !! 0 = Some (VStr "n").
Proof.
  destruct (remove_argspec_short_remainder name_age 0 0 0
              (mkStore [ {[ "name" := VStr "n"; "age" := VStr "7" ]} ]
                 [ [VStr "a"] ] None)
              {[ "name" := VStr "n"; "age" := VStr "7" ]} [VStr "a"]
              eq_refl eq_refl)
    as (σ' & rem' & Hb & _ & Hrem' & _ & Hslots).
  - reflexivity.
  - apply (bool_decide_unpack _). by vm_compute.
  - intros var Hvar. apply (bool_decide_unpack _).
    assert (var = "name" ∨ var = "age") as [-> | ->]; [|by vm_compute..].
    apply elem_of_cons in Hvar as [->|Hvar]; [by left|].
    apply elem_of_cons in Hvar as [->|Hvar]; [by right|].
    by apply elem_of_nil in Hvar.
  - done.
  - vm_compute. lia.
  - exists σ', rem'. split; [exact Hb|]. split; [exact Hrem'|].
    rewrite (Hslots 0 "name"); [by vm_compute|simpl; lia|reflexivity].
Defined.

(** ** Routing arguments *)

Lemma bind_fixed_args_other (fixed : list string) :
  ∀ (i k : nat) (rem : list string) (ra : gmap string pyval) key,
  key ∉ take (length rem - k) fixed →
  (bind_fixed_args i k fixed rem ra).2 !! key = ra !! key.
Proof.
  induction fixed as [|arg args IH]; intros i k rem ra key Hk; simpl; [done|].
  destruct (rem !! k) as [v|] eqn:E; [|done].
  apply lookup_lt_Some in E.
  replace (length rem - k) with (S (length rem - S k)) in Hk by lia.
  simpl in Hk. apply not_elem_of_cons in Hk as [Hne Hk].
  rewrite IH by done. by rewrite lookup_insert_ne.
Qed.

Lemma bind_fixed_args_bound (fixed : list string) :
  ∀ (i k : nat) (rem : list string) (ra : gmap string pyval) j arg v,
  NoDup fixed →
  fixed !! j = Some arg → rem !! (k + j) = Some v →
  (bind_fixed_args i k fixed rem ra).2 !! arg = Some (VStr v).
Proof.
  induction fixed as [|arg0 args IH]; intros i k rem ra j arg v Hnd Hj Hv;
    [done|]. simpl.
  apply NoDup_cons in Hnd as [Hnotin Hnd].
  destruct (rem !! k) as [v0|] eqn:E.
  - destruct j as [|j]; simpl in Hj.
    + injection Hj as <-. rewrite Nat.add_0_r, E in Hv. injection Hv as <-.
      rewrite bind_fixed_args_other; [by rewrite lookup_insert_eq|].
      intros Hin. apply Hnotin.
      apply elem_of_take in Hin as (n & Hn & _). by eapply list_elem_of_lookup_2.
    + eapply (IH k (S k)); [done|exact Hj|].
      by replace (S k + j) with (k + S j) by lia.
  - apply lookup_ge_None in E. apply lookup_lt_Some in Hv. lia.
Qed.

(** The value of [i] after the loop: the index of the last fixed name
    when all are bound, the length of the remainder when the loop
    breaks. *)
Lemma bind_fixed_args_index (fixed : list string) :
  ∀ (i k : nat) (rem : list string) (ra : gmap string pyval),
  (k ≤ length rem)%nat →
  (bind_fixed_args i k fixed rem ra).1
  = match fixed with
    | [] => i
    | _ => if bool_decide (k + length fixed ≤ length rem)%nat
           then k + length fixed - 1 else length rem
    end.
Proof.
  induction fixed as [|arg args IH]; intros i k rem ra Hk; simpl; [done|].
  destruct (rem !! k) as [v|] eqn:E.
  - apply lookup_lt_Some in E. rewrite IH by lia.
    destruct args as [|arg' args'].
    + simpl. rewrite bool_decide_true by lia. lia.
    + simpl. case_bool_decide; case_bool_decide; lia.
  - apply lookup_ge_None in E. simpl. rewrite bool_decide_false by lia. lia.
Qed.

(** X7: [add_routing_args] binds the fixed names, in order, to the first
    entries of the remainder, as many as there are of both; every other
    key except the path key keeps its value, and nothing but the routing
    arguments changes in the state. The names are distinct and differ
    from the path key. *)
Theorem add_routing_args_binds_fixed current_path rem fixed_args var_args s :
  NoDup fixed_args →
  current_path ∉ fixed_args →
  let s' := add_routing_args current_path rem fixed_args var_args s in
  (∀ j arg v, fixed_args !! j = Some arg → rem !! j = Some v →
              routing_args s' !! arg = Some (VStr v))
  ∧ (∀ key, key ≠ current_path → key ∉ take (length rem) fixed_args →
            routing_args s' !! key = routing_args s !! key)
  ∧ set_routing_args (routing_args s) s' = s.
Proof.
  intros Hnd Hpath s'. subst s'. unfold add_routing_args.
  pose proof (bind_fixed_args_bound fixed_args 0 0 rem (routing_args s)) as Hb.
  pose proof (bind_fixed_args_other fixed_args 0 0 rem (routing_args s)) as Ho.
  destruct (bind_fixed_args 0 0 fixed_args rem (routing_args s)) as [i ra].
  simpl in Hb, Ho. rewrite Nat.sub_0_r in Ho.
  assert (∀ j arg, fixed_args !! j = Some arg → arg ≠ current_path) as Hne.
  { intros j arg Hj ->. apply Hpath. by eapply list_elem_of_lookup_2. }
  destruct (var_args && _); simpl.
  - split; [|split; [|by destruct s]].
    + intros j arg v Hj Hv. rewrite lookup_insert_ne by (symmetry; by eapply Hne).
      by eapply Hb.
    + intros key Hk Hnot. rewrite lookup_insert_ne by done. by apply Ho.
  - split; [|split; [|by destruct s]].
    + intros j arg v Hj Hv. by eapply Hb.
    + intros key Hk Hnot. by apply Ho.
Qed.

Lemma add_routing_args_binds_fixed_witness :
  routing_args (add_routing_args "p" ["1"; "2"; "3"] ["x"; "y"] true
                  (DispatchState_init [] ∅)) !! "y" = Some (VStr "2").
Proof.
  apply (proj1 (add_routing_args_binds_fixed "p" ["1"; "2"; "3"] ["x"; "y"] true
                  (DispatchState_init [] ∅)
                  ltac:(apply (bool_decide_unpack _); by vm_compute)
                  ltac:(apply (bool_decide_unpack _); by vm_compute)) 1);
    reflexivity.
Defined.

(** X8: what [add_routing_args] stores under the path key. Without
    variable arguments the key is never written. With them, and no fixed
    names, a non-empty remainder is stored whole; with fixed names that
    are all bound, the remainder from the entry of the last fixed name on
    is stored, so that the key is written even when nothing is left
    beyond the fixed names; with more fixed names than entries nothing is
    stored. *)
Theorem add_routing_args_path_key current_path rem fixed_args var_args s :
  current_path ∉ fixed_args →
  let stored :=
    match fixed_args with
    | [] => rem
    | _ => if bool_decide (length fixed_args ≤ length rem)%nat
           then slice_from (length fixed_args - 1) rem else []
    end in
  routing_args (add_routing_args current_path rem fixed_args var_args s)
    !! current_path
  = if var_args && bool_decide (stored ≠ [])
    then Some (VList stored) else routing_args s !! current_path.
Proof.
  intros Hpath stored. unfold add_routing_args.
  pose proof (bind_fixed_args_index fixed_args 0 0 rem (routing_args s)) as Hi.
  pose proof (bind_fixed_args_other fixed_args 0 0 rem (routing_args s)
                current_path) as Ho.
  destruct (bind_fixed_args 0 0 fixed_args rem (routing_args s)) as [i ra].
  simpl in Hi, Ho. specialize (Hi ltac:(lia)). subst i.
  assert (ra !! current_path = routing_args s !! current_path) as Hra.
  { apply Ho. intros Hin. apply Hpath.
    apply elem_of_take in Hin as (n & Hn & _). by eapply list_elem_of_lookup_2. }
  set (rem' := slice_from _ rem).
  assert (rem' = stored) as ->.
  { subst rem' stored. destruct fixed_args as [|a l]; [done|].
    change (0 + length (a :: l)) with (length (a :: l)).
    case_bool_decide; [done|]. unfold slice_from. by rewrite drop_all. }
  destruct (var_args && bool_decide (stored ≠ [])); simpl.
  - by rewrite lookup_insert_eq.
  - done.
Qed.

Lemma add_routing_args_path_key_witness :
  routing_args (add_routing_args "p" ["1"; "2"] ["x"; "y"] true
                  (DispatchState_init [] ∅)) !! "p" = Some (VList ["2"]).
Proof.
  apply (add_routing_args_path_key "p" ["1"; "2"] ["x"; "y"] true
           (DispatchState_init [] ∅)).
  apply (bool_decide_unpack _). by vm_compute.
Defined.

(** ** Exposed methods and the steps of [_dispatch] *)

(** X9: [_find_first_exposed] returns nothing exactly when none of the
    names is exposed; what it returns is a method, the attribute of the
    first exposed name in the order of the list. *)
Theorem find_first_exposed_is_first G c methods :
  (_find_first_exposed G c methods = None
   ↔ ∀ name, name ∈ methods → _is_exposed G c name = false)
  ∧ ∀ m, _find_first_exposed G c methods = Some m →
         ismethod (G m) = true
         ∧ ∃ pre name post,
             methods = pre ++ name :: post
             ∧ getattr G c name = Some m
             ∧ ∀ n, n ∈ pre → _is_exposed G c n = false.
Proof.
  induction methods as [|name methods [IHn IHs]]; simpl.
  { split; [split; [by intros _ ? ?%elem_of_nil|done]|done]. }
  destruct (_is_exposed G c name) eqn:E.
  - apply is_exposed_iff in E as E'. destruct E' as (m0 & Hm0 & Hmeth).
    rewrite Hm0. split.
    + split; [done|]. intros H. specialize (H name ltac:(by left)). congruence.
    + intros m [= <-]. split; [done|]. exists [], name, methods.
      split; [done|]. split; [done|]. by intros ? ?%elem_of_nil.
  - split.
    + rewrite IHn. split.
      * intros H n [->|Hn]%elem_of_cons; [done|by apply H].
      * intros H n Hn. apply H. by right.
    + intros m Hm. destruct (IHs m Hm) as (Hmeth & pre & n & post & -> & Hg & Hpre).
      split; [done|]. exists (name :: pre), n, post.
      split; [done|]. split; [done|].
      intros n' [->|Hn']%elem_of_cons; [done|by apply Hpre].
Qed.

(** X10: on an empty remainder any attribute named [index] of the current
    controller is the handler, with an empty remainder: it need not be a
    method, and [default] and [lookup] are not looked at. The visited
    stack stays as it is. *)
Theorem index_resolves_empty_remainder G rec self w c m :
  controller (state w) = Some c →
  passes G c →
  getattr G c "index" = Some m →
  ∃ w', _dispatch G rec self w [] = Returned w'
        ∧ method (state w') = Some m
        ∧ remainder (state w') = Some []
        ∧ controller_path (state w') = controller_path (state w)
        ∧ Forall (λ e, is_pop e = false) (drop (length (trace w)) (trace w')).
Proof.
  intros Hc Hp Hi. unfold _dispatch. rewrite Hc.
  destruct (check_security_passes G c w Hp) as (w1 & -> & Hst & evs & Ht & Hevs).
  rewrite Hi. eexists. split; [done|]. simpl. rewrite Hst.
  split; [done|]. split; [done|]. split; [done|].
  rewrite Ht, <- app_assoc, drop_app_length. apply Forall_app. split.
  - eapply Forall_impl; [exact Hevs|]. by intros e [_ ?].
  - by repeat constructor.
Qed.

Lemma index_resolves_empty_remainder_witness :
  ∃ w', _dispatch guarded_graph (λ _ _ _, OutOfFuel) 1 (start 1 [] ∅) []
        = Returned w'
        ∧ method (state w') = Some 4
        ∧ remainder (state w') = Some [].
Proof.
  destruct (index_resolves_empty_remainder guarded_graph (λ _ _ _, OutOfFuel)
              1 (start 1 [] ∅) 1 4 eq_refl) as (w' & H & Hm & Hr & _).
  - intros hook. vm_compute. by intros [= <-].
  - reflexivity.
  - by exists w'.
Defined.

(** X11: a sub-controller whose [_check_security] raises cannot be passed:
    when the first segment names such an instance, the dispatch ends with
    that exception whatever segments follow and whatever the
    sub-controller has, and no handler is resolved. *)
Theorem sub_controller_denial_rejects G fuel self w c seg sub rest hook :
  controller (state w) = Some c →
  passes G c →
  getattr G c seg = Some sub →
  instance G sub →
  getattr G sub "_check_security" = Some hook →
  call_raises (G hook) = true →
  ∃ w', dispatch G (2 + fuel) self w (seg :: rest) = Raised SecurityRejected w'
        ∧ calm w w'
        ∧ EvCheckSecurity sub ∈ trace w'.
Proof.
  intros Hc Hp Hsub (Hnm & Hnc & Hni) Hh Hr.
  change (2 + fuel) with (S (S fuel)). rewrite dispatch_S. unfold _dispatch.
  rewrite Hc.
  pose proof (check_security_calm G c w) as Hcalm.
  destruct (check_security_passes G c w Hp) as (w1 & E & _).
  rewrite E in Hcalm |- *. simpl in Hcalm.
  unfold _is_exposed. rewrite Hsub, Hnm.
  unfold _dispatch_controller. destruct (hasattr G sub "_dispatch").
  - rewrite Hnc, Hni. simpl. unfold check_security. rewrite Hh, Hr.
    eexists. split; [done|]. split.
    + eapply calm_trans; [exact Hcalm|]. by apply calm_log.
    + simpl. apply elem_of_app. right. by left.
  - rewrite dispatch_S. unfold _dispatch. simpl. rewrite controller_add.
    unfold check_security. rewrite Hh, Hr.
    eexists. split; [done|]. split.
    + eapply calm_trans; [exact Hcalm|].
      eapply calm_trans; [apply enter_calm|]. by apply calm_log.
    + simpl. apply elem_of_app. right. by left.
Qed.

Lemma sub_controller_denial_rejects_witness :
  ∃ w', dispatch gated_graph 2 0 (start 0 ["sub"; "x"] ∅) ["sub"; "x"]
        = Raised SecurityRejected w'
        ∧ calm (start 0 ["sub"; "x"] ∅) w'
        ∧ EvCheckSecurity 1 ∈ trace w'.
Proof.
  apply (sub_controller_denial_rejects gated_graph 0 0
           (start 0 ["sub"; "x"] ∅) 0 "sub" 1 ["x"] 8).
  - reflexivity.
  - by intros hook.
  - reflexivity.
  - by repeat split.
  - reflexivity.
  - reflexivity.
Defined.

(** ** The depth of the recursion *)

Section NoLookup.

Variable G : graph.
Hypothesis no_lookup : lookup_free G.
Variable rec : obj → world → list string → outcome.

(** Without [lookup] the fallback search makes no further call. *)
Lemma search_up_ends self orig copied n : ∀ w rem,
  search_up G rec self orig copied n w rem ≠ OutOfFuel.
Proof.
  induction n as [|n IH]; intros w rem; [done|]. cbn [search_up].
  destruct (controller (state w)) as [c|]; [|done].
  destruct (_is_exposed G c "default");
    [by destruct (getattr G c "default")|].
  rewrite no_lookup. destruct (last _); apply IH.
Qed.

Lemma dispatch_body_ends self w rem :
  (∀ self' w' rest, (length rest < length rem)%nat →
                    rec self' w' rest ≠ OutOfFuel) →
  _dispatch G rec self w rem ≠ OutOfFuel.
Proof.
  intros Hrec. unfold _dispatch, _dispatch_first_found_default_or_lookup.
  destruct (controller (state w)) as [c|]; [|done].
  destruct (check_security G c w) as [[|] w1]; [done|].
  destruct rem as [|seg rest].
  - destruct (getattr G c "index"); [done|]. apply search_up_ends.
  - destruct (_is_exposed G c seg); [by destruct (getattr G c seg)|].
    destruct (getattr G c seg) as [sub|]; [|apply search_up_ends].
    unfold _dispatch_controller. destruct (hasattr G sub "_dispatch").
    + destruct (if isclass (G sub) then _ else _) as [c1 v1].
      destruct (check_security _ _ _) as [[|] v2]; [done|].
      apply Hrec. simpl. lia.
    + apply Hrec. simpl. lia.
Qed.

End NoLookup.

(** X13: in a graph in which nothing exposes a [lookup], a dispatch always
    ends: a recursion one deeper than the remainder is long is enough for
    it to return a handler or to raise, on every graph however it is
    linked, since every call consumes a segment. *)
Theorem dispatch_ends_without_lookup G fuel self w rem :
  lookup_free G →
  (length rem < fuel)%nat →
  dispatch G fuel self w rem ≠ OutOfFuel.
Proof.
  intros Hfree. revert self w rem.
  induction fuel as [|fuel IH]; intros self w rem Hlen; [lia|].
  rewrite dispatch_S. apply dispatch_body_ends; [done|].
  intros self' w' rest Hrest. apply IH. lia.
Qed.

Lemma chain_graph_lookup_free : lookup_free chain_graph.
Proof.
  intros c. do 4 (destruct c as [|c]; [reflexivity|]). reflexivity.
Qed.

Lemma dispatch_ends_without_lookup_witness :
  dispatch chain_graph 3 0 (start 0 ["a"; "zzz"] ∅) ["a"; "zzz"] ≠ OutOfFuel.
Proof.
  apply (dispatch_ends_without_lookup chain_graph 3 0 (start 0 ["a"; "zzz"] ∅)
           ["a"; "zzz"]).
  - intros c. do 4 (destruct c as [|c]; [reflexivity|]). reflexivity.
  - simpl. lia.
Defined.

(** ** Security and ownership of the resolved handler *)

Lemma Forall_removelast {A} (P : A → Prop) (l : list A) :
  Forall P l → Forall P (removelast l).
Proof.
  destruct (snoc_case l) as [->|(l' & x & ->)]; [done|].
  rewrite removelast_last. by intros [? _]%Forall_app.
Qed.

Lemma check_security_false G o w :
  (check_security G o w).1 = false → passes G o.
Proof.
  unfold check_security, passes.
  destruct (getattr G o "_check_security") as [hook|]; [|done].
  simpl. by intros Hr hook' [= <-].
Qed.

Lemma check_security_state G o w : state (check_security G o w).2 = state w.
Proof. unfold check_security. by destruct (getattr G o "_check_security"). Qed.

Lemma stack_passes_top G w c :
  below_passes G w → controller (state w) = Some c → passes G c →
  stack_passes G w.
Proof.
  unfold below_passes, stack_passes, controller, odict.getitem_last, odict.values.
  destruct (snoc_case (controller_path (state w))) as [->|(l & [k x] & ->)];
    [done|].
  rewrite removelast_last, last_snoc, fmap_app. simpl.
  intros Hb [= <-] Hp. apply Forall_app. split; [done|]. by apply Forall_singleton.
Qed.

Lemma Forall_filter_keep {A} (P Q : A → Prop) `{!∀ x, Decision (Q x)} (l : list A) :
  Forall P l → Forall P (filter Q l).
Proof.
  induction 1 as [|x l Hx Hl IH]; [done|]. rewrite filter_cons.
  destruct (decide (Q x)); [by constructor|done].
Qed.

Lemma below_passes_enter G k c s tr :
  Forall (passes G) (odict.values (controller_path s)) →
  below_passes G (mkWorld (add_controller k c s) tr).
Proof.
  unfold below_passes, odict.values, add_controller, odict.setitem,
    set_controller_path.
  cbn [state controller_path]. rewrite removelast_last. intros H.
  apply Forall_fmap, Forall_filter_keep. by apply Forall_fmap.
Qed.

Section Secured.

Variable G : graph.
Variable rec : obj → world → list string → outcome.
Hypothesis rec_secured : ∀ self w rem, below_passes G w → secured G (rec self w rem).

Lemma dispatch_controller_secured self k c w rem :
  stack_passes G w → secured G (_dispatch_controller G rec self k c w rem).
Proof.
  intros Hs. unfold _dispatch_controller. destruct (hasattr G c "_dispatch").
  - set (c1 := if isclass (G c) then instantiate (G c) else c).
    set (v1 := if isclass (G c) then log (EvInstantiate c) w else w).
    replace (if isclass (G c) then (instantiate (G c), log (EvInstantiate c) w)
             else (c, w)) with (c1, v1) by (subst c1 v1; by destruct (isclass _)).
    assert (state v1 = state w) as Hv by (subst v1; by destruct (isclass _)).
    pose proof (check_security_state G (default c1 (getattr G c1 "im_self")) v1)
      as Hst.
    destruct (check_security _ _ v1) as [[|] v2]; [done|]. simpl in Hst.
    apply rec_secured. apply below_passes_enter. by rewrite Hst, Hv.
  - apply rec_secured. by apply below_passes_enter.
Qed.

Lemma search_up_secured self orig copied n : ∀ w rem,
  stack_passes G w → secured G (search_up G rec self orig copied n w rem).
Proof.
  induction n as [|n IH]; intros w rem Hs; [done|]. cbn [search_up].
  destruct (controller (state w)) as [c|] eqn:Ec; [|done].
  destruct (_is_exposed G c "default").
  { destruct (getattr G c "default") as [m|] eqn:Em; [|done].
    split; [done|]. by exists c, "default", m. }
  destruct (_is_exposed G c "lookup").
  { destruct (getattr G c "lookup") as [m|]; [|done].
    destruct (call_lookup (G m) rem) as [c' rem'].
    apply dispatch_controller_secured. by destruct copied. }
  assert (∀ tr u, stack_passes G
            (mkWorld (set_url_path u
                        (set_controller_path
                           (odict.pop (controller_path (state w))) (state w))) tr))
    as Hpop.
  { intros tr u. unfold stack_passes, odict.values, odict.pop. simpl.
    apply Forall_fmap, Forall_removelast, Forall_fmap, Hs. }
  destruct (last _).
  - apply IH. apply Hpop.
  - apply IH. unfold stack_passes, odict.values, odict.pop. simpl.
    apply Forall_fmap, Forall_removelast, Forall_fmap, Hs.
Qed.

Lemma dispatch_body_secured self w rem :
  below_passes G w → secured G (_dispatch G rec self w rem).
Proof.
  intros Hb. unfold _dispatch.
  destruct (controller (state w)) as [c|] eqn:Ec; [|done].
  pose proof (check_security_false G c w) as Hp.
  pose proof (check_security_state G c w) as Hst.
  destruct (check_security G c w) as [[|] w1]; [done|]. simpl in Hp, Hst.
  assert (stack_passes G w1) as Hs.
  { apply (stack_passes_top G w1 c); [|by rewrite Hst|by apply Hp].
    unfold below_passes. by rewrite Hst. }
  assert (controller (state w1) = Some c) as Ec1 by by rewrite Hst.
  destruct rem as [|seg rest].
  - destruct (getattr G c "index") as [m|] eqn:Ei.
    + split; [done|]. by exists c, "index", m.
    + unfold _dispatch_first_found_default_or_lookup.
      apply search_up_secured. by case_bool_decide.
  - destruct (_is_exposed G c seg).
    + destruct (getattr G c seg) as [m|] eqn:Em; [|done].
      split; [done|]. by exists c, seg, m.
    + destruct (getattr G c seg) as [sub|].
      * by apply dispatch_controller_secured.
      * unfold _dispatch_first_found_default_or_lookup.
        apply search_up_secured. by case_bool_decide.
Qed.

End Secured.

Lemma dispatch_secured G fuel : ∀ self w rem,
  below_passes G w → secured G (dispatch G fuel self w rem).
Proof.
  induction fuel as [|fuel IH]; intros self w rem Hb; [done|].
  rewrite dispatch_S. by apply dispatch_body_secured.
Qed.

(** X14: a request is never answered through a controller that denies
    it: when the dispatch started by [_get_dispatchable] returns a
    handler, the [_check_security] hook of every controller on the visited
    stack, the current one included, lets the request through, on every
    graph and path, lookups included. *)
Theorem resolved_stack_passes_security
    G guess_type fuel root url_path request_params w :
  result (_get_dispatchable G guess_type fuel root url_path request_params)
  = Returned w →
  stack_passes G w.
Proof.
  unfold _get_dispatchable.
  destruct (strip_extension guess_type url_path) as [[p rt] re]. simpl.
  pose proof (dispatch_secured G fuel root (start root p request_params) p) as H.
  destruct (dispatch G fuel root (start root p request_params) p) as [w'| |];
    simpl; [|done..].
  intros [= <-]. apply H. constructor.
Qed.

Lemma resolved_stack_passes_security_witness :
  ∃ w, result (_get_dispatchable lookup_graph json_only 5 0 ["p"; "q"] ∅)
       = Returned w
       ∧ stack_passes lookup_graph w.
Proof.
  eexists. split; [vm_compute; reflexivity|].
  apply (resolved_stack_passes_security lookup_graph json_only 5 0 ["p"; "q"] ∅).
  vm_compute. reflexivity.
Defined.

(** X15: the handler that a dispatch returns is an attribute of the
    controller that is current when it returns, the one on which the
    invocation layer then runs the lifecycle hooks: after a fallback the
    stack has been popped down to the controller whose [default] was
    taken, after a lookup the controller it returned has been pushed. *)
Theorem resolved_handler_on_current_controller
    G guess_type fuel root url_path request_params w :
  result (_get_dispatchable G guess_type fuel root url_path request_params)
  = Returned w →
  handler_of_current G w.
Proof.
  unfold _get_dispatchable.
  destruct (strip_extension guess_type url_path) as [[p rt] re]. simpl.
  pose proof (dispatch_secured G fuel root (start root p request_params) p) as H.
  destruct (dispatch G fuel root (start root p request_params) p) as [w'| |];
    simpl; [|done..].
  intros [= <-]. apply H. constructor.
Qed.

Lemma resolved_handler_on_current_controller_witness :
  ∃ w, result (_get_dispatchable chain_graph json_only 6 0
                 ["a"; "b"; "c"; "extra"] ∅) = Returned w
       ∧ handler_of_current chain_graph w.
Proof.
  eexists. split; [vm_compute; reflexivity|].
  apply (resolved_handler_on_current_controller chain_graph json_only 6 0
           ["a"; "b"; "c"; "extra"] ∅).
  vm_compute. reflexivity.
Defined.

(** ** What a dispatch leaves alone *)

Lemma framed_step w w1 o :
  params (state w1) = params (state w) →
  routing_args (state w1) = routing_args (state w) →
  framed w1 o → framed w o.
Proof. intros Hp Hr H w' Hw'. destruct (H w' Hw'). split; congruence. Qed.

Lemma framed_returned w w1 :
  params (state w1) = params (state w) →
  routing_args (state w1) = routing_args (state w) →
  framed w (Returned w1).
Proof. intros Hp Hr. by intros w' [= <-]. Qed.

Lemma framed_raised w w1 e :
  params (state w1) = params (state w) →
  routing_args (state w1) = routing_args (state w) →
  framed w (Raised e w1).
Proof. intros Hp Hr. by intros w' [= <-]. Qed.

Section Framed.

Variable G : graph.
Variable rec : obj → world → list string → outcome.
Hypothesis rec_framed : ∀ self w rem, framed w (rec self w rem).

Lemma dispatch_controller_framed self k c w rem :
  framed w (_dispatch_controller G rec self k c w rem).
Proof.
  unfold _dispatch_controller. destruct (hasattr G c "_dispatch").
  - set (c1 := if isclass (G c) then instantiate (G c) else c).
    set (v1 := if isclass (G c) then log (EvInstantiate c) w else w).
    replace (if isclass (G c) then (instantiate (G c), log (EvInstantiate c) w)
             else (c, w)) with (c1, v1) by (subst c1 v1; by destruct (isclass _)).
    assert (state v1 = state w) as Hv by (subst v1; by destruct (isclass _)).
    pose proof (check_security_state G (default c1 (getattr G c1 "im_self")) v1)
      as Hst.
    destruct (check_security _ _ v1) as [[|] v2]; simpl in Hst.
    + apply framed_raised; by rewrite Hst, Hv.
    + eapply framed_step; [| |apply rec_framed]; simpl; by rewrite Hst, Hv.
  - eapply framed_step; [| |apply rec_framed]; done.
Qed.

Lemma search_up_framed self orig copied n : ∀ w rem,
  framed w (search_up G rec self orig copied n w rem).
Proof.
  induction n as [|n IH]; intros w rem; [by apply framed_raised|].
  cbn [search_up].
  destruct (controller (state w)) as [c|]; [|by apply framed_raised].
  destruct (_is_exposed G c "default").
  { destruct (getattr G c "default"); [by apply framed_returned|by apply framed_raised]. }
  destruct (_is_exposed G c "lookup").
  { destruct (getattr G c "lookup") as [m|]; [|by apply framed_raised].
    destruct (call_lookup (G m) rem) as [c' rem'].
    eapply framed_step; [| |apply dispatch_controller_framed];
      by destruct copied. }
  destruct (last _); (eapply framed_step; [| |apply IH]); done.
Qed.

Lemma dispatch_body_framed self w rem :
  framed w (_dispatch G rec self w rem).
Proof.
  unfold _dispatch, _dispatch_first_found_default_or_lookup.
  destruct (controller (state w)) as [c|]; [|by apply framed_raised].
  pose proof (check_security_state G c w) as Hst.
  destruct (check_security G c w) as [[|] w1]; simpl in Hst;
    [apply framed_raised; by rewrite Hst|].
  eapply (framed_step w w1); [by rewrite Hst..|].
  destruct rem as [|seg rest].
  - destruct (getattr G c "index"); [by apply framed_returned|].
    eapply framed_step; [| |apply search_up_framed]; by case_bool_decide.
  - destruct (_is_exposed G c seg).
    + destruct (getattr G c seg); [by apply framed_returned|by apply framed_raised].
    + destruct (getattr G c seg); [apply dispatch_controller_framed|].
      eapply framed_step; [| |apply search_up_framed]; by case_bool_decide.
Qed.

End Framed.

Lemma dispatch_framed G fuel : ∀ self w rem,
  framed w (dispatch G fuel self w rem).
Proof.
  induction fuel as [|fuel IH]; intros self w rem; [by intros w' [=]|].
  rewrite dispatch_S. by apply dispatch_body_framed.
Qed.

(** X16: the object dispatch binds no routing argument of its own and
    never touches the request parameters: whenever [_get_dispatchable]
    returns a handler, the routing arguments of the state are exactly the
    request parameters, whatever the graph, the path and the lookups
    did. *)
Theorem routing_args_are_request_params
    G guess_type fuel root url_path request_params w :
  result (_get_dispatchable G guess_type fuel root url_path request_params)
  = Returned w →
  routing_args (state w) = request_params ∧ params (state w) = request_params.
Proof.
  unfold _get_dispatchable.
  destruct (strip_extension guess_type url_path) as [[p rt] re]. simpl.
  pose proof (dispatch_framed G fuel root (start root p request_params) p) as H.
  destruct (dispatch G fuel root (start root p request_params) p) as [w'| |];
    simpl; [|done..].
  destruct (H w' eq_refl) as [Hp Hr]. intros [= <-]. simpl.
  rewrite Hr, Hp. simpl. split; [|done]. apply (right_id_L ∅ (∪)).
Qed.

Lemma routing_args_are_request_params_witness :
  ∃ w, result (_get_dispatchable chain_graph json_only 6 0
                 ["a"; "b"; "c"; "extra"] {[ "page" := VStr "2" ]}) = Returned w
       ∧ routing_args (state w) = {[ "page" := VStr "2" ]}.
Proof.
  eexists. split; [vm_compute; reflexivity|].
  apply (routing_args_are_request_params chain_graph json_only 6 0
           ["a"; "b"; "c"; "extra"] {[ "page" := VStr "2" ]}).
  vm_compute. reflexivity.
Defined.

(** ** The remainder of the resolved handler *)

Lemma last_removelast {A} (l : list A) x :
  last l = Some x → removelast l ++ [x] = l.
Proof.
  destruct (snoc_case l) as [->|(l' & y & ->)]; [done|].
  rewrite last_snoc, removelast_last. by intros [= <-].
Qed.

Section Suffixed.

Variable G : graph.
Hypothesis no_lookup : lookup_free G.
Variable path : list string.
Variable rec : obj → world → list string → outcome.
Hypothesis rec_suffixed : ∀ self w rem,
  url_path (state w) = path → rem `suffix_of` path →
  suffixed path (rec self w rem).

Lemma dispatch_controller_suffixed self k c w rem :
  url_path (state w) = path → rem `suffix_of` path →
  suffixed path (_dispatch_controller G rec self k c w rem).
Proof.
  intros Hu Hs. unfold _dispatch_controller. destruct (hasattr G c "_dispatch").
  - set (c1 := if isclass (G c) then instantiate (G c) else c).
    set (v1 := if isclass (G c) then log (EvInstantiate c) w else w).
    replace (if isclass (G c) then (instantiate (G c), log (EvInstantiate c) w)
             else (c, w)) with (c1, v1) by (subst c1 v1; by destruct (isclass _)).
    assert (state v1 = state w) as Hv by (subst v1; by destruct (isclass _)).
    pose proof (check_security_state G (default c1 (getattr G c1 "im_self")) v1)
      as Hst.
    destruct (check_security _ _ v1) as [[|] v2]; [done|]. simpl in Hst.
    apply rec_suffixed; [|done]. simpl. by rewrite Hst, Hv.
  - by apply rec_suffixed.
Qed.

(** In the search the path walked back over and the pending remainder
    always make up the request path. *)
Lemma search_up_suffixed self orig copied n : ∀ w rem,
  url_path (state w) ++ rem = path →
  suffixed path (search_up G rec self orig copied n w rem).
Proof.
  induction n as [|n IH]; intros w rem Hu; [done|]. cbn [search_up].
  destruct (controller (state w)) as [c|]; [|done].
  destruct (_is_exposed G c "default").
  { destruct (getattr G c "default"); [|done].
    exists rem. split; [done|]. by exists (url_path (state w)). }
  rewrite no_lookup. cbn [state log upd url_path set_controller_path].
  destruct (last (url_path (state w))) as [seg|] eqn:El.
  - apply IH. simpl. rewrite <- Hu.
    transitivity ((removelast (url_path (state w)) ++ [seg]) ++ rem);
      [by rewrite <- app_assoc | by rewrite (last_removelast _ _ El)].
  - by apply IH.
Qed.

Lemma fallback_suffixed self w rem :
  url_path (state w) = path → rem `suffix_of` path →
  suffixed path (_dispatch_first_found_default_or_lookup G rec self w rem).
Proof.
  intros Hu [k Hk]. unfold _dispatch_first_found_default_or_lookup.
  apply search_up_suffixed. case_bool_decide as Hlen.
  - simpl. unfold slice_to_neg. rewrite Hu, Hk, length_app.
    replace (length k + length rem - length rem) with (length k) by lia.
    by rewrite take_app_length.
  - destruct rem; [|simpl in Hlen; lia]. by rewrite app_nil_r.
Qed.

Lemma dispatch_body_suffixed self w rem :
  url_path (state w) = path → rem `suffix_of` path →
  suffixed path (_dispatch G rec self w rem).
Proof.
  intros Hu Hs. unfold _dispatch.
  destruct (controller (state w)) as [c|]; [|done].
  pose proof (check_security_state G c w) as Hst.
  destruct (check_security G c w) as [[|] w1]; [done|]. simpl in Hst.
  assert (url_path (state w1) = path) as Hu1 by by rewrite Hst.
  destruct rem as [|seg rest].
  - destruct (getattr G c "index").
    + exists []. split; [done|]. apply suffix_nil.
    + by apply fallback_suffixed.
  - assert (rest `suffix_of` path) as Hrest.
    { destruct Hs as [k ->]. exists (k ++ [seg]). by rewrite <- app_assoc. }
    destruct (_is_exposed G c seg).
    + destruct (getattr G c seg); [|done]. by exists rest.
    + destruct (getattr G c seg).
      * by apply dispatch_controller_suffixed.
      * by apply fallback_suffixed.
Qed.

End Suffixed.

Lemma dispatch_suffixed G path fuel :
  lookup_free G →
  ∀ self w rem,
    url_path (state w) = path → rem `suffix_of` path →
    suffixed path (dispatch G fuel self w rem).
Proof.
  intros Hfree. induction fuel as [|fuel IH]; intros self w rem Hu Hs; [done|].
  rewrite dispatch_S. by apply dispatch_body_suffixed.
Qed.

(** X17: in a graph in which nothing exposes a [lookup], the remainder
    handed to the resolved handler is always an end of the path that was
    dispatched: the segments after a matched method, or, after a
    fallback to a [default], the segments walked back over followed by
    the unmatched ones. No segment is invented, reordered or dropped from
    the middle. *)
Theorem remainder_is_end_of_path
    G guess_type fuel root url_path request_params w :
  lookup_free G →
  let r := _get_dispatchable G guess_type fuel root url_path request_params in
  result r = Returned w →
  ∃ rem, remainder (state w) = Some rem ∧ rem `suffix_of` dispatched_path r.
Proof.
  intros Hfree. unfold _get_dispatchable.
  destruct (strip_extension guess_type url_path) as [[p rt] re]. simpl.
  pose proof (dispatch_suffixed G p fuel Hfree root (start root p request_params) p
                eq_refl (reflexivity (R:=suffix) p)) as H.
  destruct (dispatch G fuel root (start root p request_params) p) as [w'| |];
    simpl; [|done..].
  by intros [= <-].
Qed.

Lemma remainder_is_end_of_path_witness :
  ∃ w rem, result (_get_dispatchable chain_graph json_only 6 0
                     ["a"; "b"; "c"; "extra"] ∅) = Returned w
           ∧ remainder (state w) = Some rem
           ∧ rem `suffix_of` ["a"; "b"; "c"; "extra"].
Proof.
  destruct (remainder_is_end_of_path chain_graph json_only 6 0
              ["a"; "b"; "c"; "extra"] ∅
              (match result (_get_dispatchable chain_graph json_only 6 0
                               ["a"; "b"; "c"; "extra"] ∅) with
               | Returned w => w
               | _ => start 0 [] ∅
               end)) as (rem & Hr & Hs).
  - intros c. do 4 (destruct c as [|c]; [reflexivity|]). reflexivity.
  - vm_compute. reflexivity.
  - eexists _, rem. split; [vm_compute; reflexivity|]. split; [exact Hr|exact Hs].
Defined.

(** ** The URL path of a request *)

Lemma append_String a s t : String a s +:+ t = String a (s +:+ t).
Proof. reflexivity. Qed.

Lemma split_on_whole sep s :
  contains sep s = false → split_on sep s = [s].
Proof.
  induction s as [|a s IH]; simpl; [done|].
  intros [Ha Hs]%orb_false_iff. by rewrite Ha, (IH Hs).
Qed.

Lemma split_on_cut sep s rest :
  contains sep s = false →
  split_on sep (s +:+ String sep rest) = s :: split_on sep rest.
Proof.
  induction s as [|a s IH]; intros Hs.
  - change (EmptyString +:+ String sep rest) with (String sep rest).
    simpl. by rewrite Ascii.eqb_refl.
  - simpl in Hs. apply orb_false_iff in Hs as [Ha Hs].
    rewrite append_String. simpl. by rewrite Ha, (IH Hs).
Qed.

Lemma split_on_pieces sep s :
  Forall (λ piece, contains sep piece = false) (split_on sep s).
Proof.
  induction s as [|a s IH]; simpl; [by repeat constructor|].
  destruct (Ascii.eqb a sep) eqn:Ea; [by constructor|].
  destruct (split_on sep s) as [|x xs];
    [apply Forall_singleton; simpl; by rewrite Ea|].
  apply Forall_cons in IH as [Hx Hxs]. constructor; [|done].
  simpl. by rewrite Ea.
Qed.

(** Splitting what was joined gives the pieces back. *)
Lemma split_on_join sep (segs : list string) :
  segs ≠ [] →
  Forall (λ piece, contains sep piece = false) segs →
  split_on sep (join (String sep EmptyString) segs) = segs.
Proof.
  induction segs as [|x segs IH]; [done|]. intros _ [Hx Hsegs]%Forall_cons.
  destruct segs as [|y segs]; [by apply split_on_whole|].
  change (join (String sep EmptyString) (x :: y :: segs))
    with (x +:+ String sep EmptyString +:+ join (String sep EmptyString) (y :: segs)).
  change (String sep EmptyString +:+ join (String sep EmptyString) (y :: segs))
    with (String sep (join (String sep EmptyString) (y :: segs))).
  rewrite split_on_cut by done. f_equal. by apply IH.
Qed.

Lemma append_assoc (s t u : string) : (s +:+ t) +:+ u = s +:+ t +:+ u.
Proof. induction s as [|a s IH]; [done|]. rewrite !append_String. by f_equal. Qed.

Lemma append_empty_r (s : string) : s +:+ EmptyString = s.
Proof. induction s as [|a s IH]; [done|]. rewrite append_String. by f_equal. Qed.

Lemma join_trailing sep (segs : list string) :
  segs ≠ [] →
  join sep (segs ++ [EmptyString]) = join sep segs +:+ sep.
Proof.
  induction segs as [|x segs IH]; [done|]. intros _.
  destruct segs as [|y segs].
  - change (join sep ([x] ++ [EmptyString])) with (x +:+ sep +:+ EmptyString).
    by rewrite append_empty_r.
  - change (join sep ((x :: y :: segs) ++ [EmptyString]))
      with (x +:+ sep +:+ join sep ((y :: segs) ++ [EmptyString])).
    rewrite IH by done.
    change (join sep (x :: y :: segs)) with (x +:+ sep +:+ join sep (y :: segs)).
    by rewrite !append_assoc.
Qed.

(** X18: how [_perform_call] turns the request path into segments. For
    segments without a slash of which the last is not empty, the path
    made of a slash and the segments joined by slashes gives the segments
    back, and so does that path with one more slash at its end; the path
    ["/"] gives no segment. The empty path raises [IndexError], since the
    last piece is inspected without a test for emptiness. *)
Theorem request_url_path_of_segments (segs : list string) :
  Forall (λ seg, contains "/" seg = false) segs →
  last segs ≠ Some EmptyString →
  request_url_path ("/" +:+ join "/" segs) = inr segs
  ∧ (segs ≠ [] → request_url_path ("/" +:+ join "/" segs +:+ "/") = inr segs)
  ∧ request_url_path EmptyString = inl IndexError.
Proof.
  intros Hsegs Hlast. split; [|split; [|done]].
  - destruct (decide (segs = [])) as [->|Hne]; [done|].
    unfold request_url_path.
    change ("/" +:+ join "/" segs) with (String "/" (join "/" segs)).
    change (split_on "/" (String "/" (join "/" segs)))
      with (EmptyString :: split_on "/" (join "/" segs)).
    rewrite split_on_join by done. unfold slice_from.
    change (drop 1 (EmptyString :: segs)) with segs.
    destruct (last segs) as [x|] eqn:El.
    + destruct (String.eqb_spec x EmptyString) as [->|]; [done|done].
    + by apply last_None in El.
  - intros Hne. rewrite <- join_trailing by done. unfold request_url_path.
    change ("/" +:+ join "/" (segs ++ [EmptyString]))
      with (String "/" (join "/" (segs ++ [EmptyString]))).
    change (split_on "/" (String "/" (join "/" (segs ++ [EmptyString]))))
      with (EmptyString :: split_on "/" (join "/" (segs ++ [EmptyString]))).
    rewrite split_on_join;
      [|by destruct segs|apply Forall_app; split; [done|by repeat constructor]].
    unfold slice_from.
    change (drop 1 (EmptyString :: segs ++ [EmptyString]))
      with (segs ++ [EmptyString]).
    by rewrite last_snoc, removelast_last.
Qed.

Lemma request_url_path_of_segments_witness :
  request_url_path "/users/7/show" = inr ["users"; "7"; "show"]
  ∧ request_url_path "/users/7/show/" = inr ["users"; "7"; "show"].
Proof.
  destruct (request_url_path_of_segments ["users"; "7"; "show"]) as (H1 & H2 & _).
  - by repeat constructor.
  - discriminate.
  - split; [exact H1 | by apply H2].
Defined.


